(** * spendtexas: the ingestion and daily summary pipeline of [main.py]

    A shallow embedding of the Telegram spend bot: the text parsing
    ([AMOUNT_RE], [_norm_amount], [extract_cluster]), the [ingest] handler
    with its SQLite table [spends], and the queries of [summarize_day].

    Python values are modelled as the program has them: a [str] is a
    sequence of Unicode code points, a [Decimal] is a sign, an integer
    coefficient and an exponent, a Python [float] and an SQLite [REAL] are
    IEEE 754 binary64 numbers ([spec_float] with precision 53), the table
    is the list of its rows in insertion order. *)

From Stdlib Require Import ZArith NArith List Bool Lia.
From Stdlib Require Import Znumtheory.
From Stdlib Require Import Permutation Sorted.
From Stdlib Require Import Ascii String.
From Stdlib Require Import SpecFloat.
Import ListNotations.

Set Implicit Arguments.
Local Open Scope Z_scope.

(* ================================================================= *)
(** ** Python strings *)

Module Py.

(** A code point, and a [str] as the sequence of its code points. *)
Definition codepoint := N.
Definition str := list codepoint.

(** The literal whose characters are the given Basic Latin characters. *)
Definition lit (s : string) : str :=
  List.map N_of_ascii (list_ascii_of_string s).

Definition str_eqb (a b : str) : bool :=
  if list_eq_dec N.eq_dec a b then true else false.

(** The parts of the Unicode character database the program depends on
    through [str.upper], [\d], [Decimal] and [re.I].  They change with
    the Unicode version of the interpreter, so they are taken as an
    interface. *)
Class Unicode := {
  (** value of a character of category Nd ([str.isdecimal], [\d]) *)
  decimal : codepoint -> option N;
  (** full upper-case mapping of one character ([str.upper]) *)
  upper : codepoint -> str;
  (** whether a text character matches a pattern literal under [re.I] *)
  ignorecase_eq : codepoint -> codepoint -> bool
}.

Definition isdecimal `{Unicode} (c : codepoint) : bool :=
  match decimal c with Some _ => true | None => false end.

(** [str.isspace] and [\s] on one character: the same 29 code points. *)
Definition whitespace : list codepoint :=
  [9; 10; 11; 12; 13; 28; 29; 30; 31; 32; 133; 160; 5760;
   8192; 8193; 8194; 8195; 8196; 8197; 8198; 8199; 8200; 8201; 8202;
   8232; 8233; 8239; 8287; 12288]%N.

Definition isspace (c : codepoint) : bool :=
  existsb (N.eqb c) whitespace.

(** [s.replace(old, new)] for a one-character [old], the only form the
    program uses. *)
Definition str_replace (old : codepoint) (new : str) (s : str) : str :=
  flat_map (fun c => if N.eqb c old then new else [c]) s.

(** [s.count(c)] for a one-character [c]. *)
Definition str_count (c : codepoint) (s : str) : nat :=
  List.length (filter (N.eqb c) s).

Fixpoint lstrip (s : str) : str :=
  match s with
  | c :: s' => if isspace c then lstrip s' else s
  | [] => []
  end.

(** [s.strip()] *)
Definition str_strip (s : str) : str :=
  rev (lstrip (rev (lstrip s))).

(** [s.upper()] *)
Definition str_upper `{Unicode} (s : str) : str := flat_map upper s.

Fixpoint startswith (p s : str) : bool :=
  match p, s with
  | [], _ => true
  | a :: p', b :: s' => N.eqb a b && startswith p' s'
  | _ :: _, [] => false
  end.

(** [sub in s] *)
Fixpoint str_in (sub s : str) : bool :=
  startswith sub s ||
  match s with
  | [] => false
  | _ :: s' => str_in sub s'
  end.

(** [a <= b], code point by code point; also the BINARY collation of
    SQLite on TEXT. *)
Fixpoint str_leb (a b : str) : bool :=
  match a, b with
  | [], _ => true
  | _ :: _, [] => false
  | x :: a', y :: b' => N.ltb x y || (N.eqb x y && str_leb a' b')
  end.

(** [a or b] on strings: [a] when it is non-empty. *)
Definition str_or (a b : str) : str :=
  match a with [] => b | _ => a end.

(** The tables on the Basic Latin block (code points below 128); other
    characters are given no digit value, no case mapping and no case
    folding.  It agrees with every Unicode version on Basic Latin text,
    and the concrete evaluations below are on such text. *)
Definition ascii_upper (c : codepoint) : codepoint :=
  if (97 <=? c)%N && (c <=? 122)%N then (c - 32)%N else c.

#[export] Instance basic_latin : Unicode := {|
  decimal c := if (48 <=? c)%N && (c <=? 57)%N then Some (c - 48)%N else None;
  upper c := [ascii_upper c];
  ignorecase_eq c p := N.eqb (ascii_upper c) (ascii_upper p)
|}.

End Py.
Import Py.

(* ================================================================= *)
(** ** Regular expressions: the fragment of [re] that [AMOUNT_RE] uses *)

Module Re.

(** One-character matchers. *)
Variant item :=
| Lit (c : codepoint)          (* a letter, compared under re.I *)
| Chr (c : codepoint)          (* a character that has no case *)
| Digit                        (* \d *)
| Space.                       (* \s *)

Variant atom :=
| Single (i : item)
| OneOf (items : list item).   (* a character set [...] *)

(** Patterns.  Repetition is only ever applied to a one-character
    matcher in [AMOUNT_RE], and is greedy. *)
Inductive regex :=
| One (a : atom)
| Cat (r1 r2 : regex)
| Alt (r1 r2 : regex)          (* r1|r2 *)
| Opt (r : regex)              (* r? *)
| Star (a : atom)              (* a* *)
| Plus (a : atom)              (* a+ *)
| Group (r : regex).           (* (r), the capturing group 1 *)

Section Match.
Context `{Unicode}.

Definition item_match (i : item) (c : codepoint) : bool :=
  match i with
  | Lit p => ignorecase_eq c p
  | Chr p => N.eqb c p
  | Digit => isdecimal c
  | Space => isspace c
  end.

Definition atom_match (a : atom) (c : codepoint) : bool :=
  match a with
  | Single i => item_match i c
  | OneOf items => existsb (fun i => item_match i c) items
  end.

(** A match continues with the rest of the text and the text captured
    by group 1 so far. *)
Definition cont := str -> option str -> option (str * option str).

(** Greedy repetition with backtracking: take one more character if
    the rest of the pattern then succeeds, otherwise stop here. *)
Fixpoint star (a : atom) (s : str) (cap : option str) (k : cont)
  : option (str * option str) :=
  match s with
  | c :: s' =>
      if atom_match a c then
        match star a s' cap k with
        | Some r => Some r
        | None => k s cap
        end
      else k s cap
  | [] => k s cap
  end.

(** The backtracking matcher: the first alternative that lets the
    whole pattern succeed wins. *)
Fixpoint run (r : regex) (s : str) (cap : option str) (k : cont)
  : option (str * option str) :=
  match r with
  | One a =>
      match s with
      | c :: s' => if atom_match a c then k s' cap else None
      | [] => None
      end
  | Cat r1 r2 => run r1 s cap (fun s' cap' => run r2 s' cap' k)
  | Alt r1 r2 =>
      match run r1 s cap k with
      | Some x => Some x
      | None => run r2 s cap k
      end
  | Opt r1 =>
      match run r1 s cap k with
      | Some x => Some x
      | None => k s cap
      end
  | Star a => star a s cap k
  | Plus a =>
      match s with
      | c :: s' => if atom_match a c then star a s' cap k else None
      | [] => None
      end
  | Group r1 =>
      run r1 s cap
        (fun s' _ => k s' (Some (firstn (List.length s - List.length s') s)))
  end.

(** [pattern.match] at the start of [s]: the text left after the match
    and group 1. *)
Definition match_at (r : regex) (s : str) : option (str * option str) :=
  run r s None (fun s' cap => Some (s', cap)).

Definition group1 (cap : option str) : str :=
  match cap with Some g => g | None => [] end.

(** [pattern.findall(s)] for a pattern with one group: scan from the
    left, at each position record group 1 of the match found there and
    go on from its end, or move one character on.  [skip] counts the
    characters still covered by the last match. *)
Fixpoint findall_from (r : regex) (skip : nat) (s : str) : list str :=
  match s with
  | [] =>
      match skip, match_at r [] with
      | O, Some (_, cap) => [group1 cap]
      | _, _ => []
      end
  | _ :: s' =>
      match skip with
      | S n => findall_from r n s'
      | O =>
          match match_at r s with
          | Some (rest, cap) =>
              group1 cap ::
              findall_from r (List.length s - List.length rest - 1) s'
          | None => findall_from r O s'
          end
      end
  end.

Definition findall (r : regex) (s : str) : list str := findall_from r O s.

End Match.

End Re.
Import Re.

(* ================================================================= *)
(** ** Exceptions *)

(** The exceptions the modelled code raises: [decimal.InvalidOperation],
    from the [Decimal] constructor, and the [TypeError] of a call of
    something that cannot be called. *)
Variant exception := InvalidOperation | TypeError.

Variant result (A : Type) :=
| Return (a : A)
| Raise (e : exception).
Arguments Return {A} a.
Arguments Raise {A} e.

Definition bind {A B} (m : result A) (f : A -> result B) : result B :=
  match m with
  | Return a => f a
  | Raise e => Raise e
  end.

Notation "x <- m ;; k" := (bind m (fun x => k))
  (at level 61, m at next level, right associativity).

(** Evaluating a generator to the end: the first element that raises stops
    the iteration. *)
Fixpoint for_each {A B} (f : A -> result B) (l : list A) : result (list B) :=
  match l with
  | [] => Return []
  | a :: l' => b <- f a ;; bs <- for_each f l' ;; Return (b :: bs)
  end.

(* ================================================================= *)
(** ** [decimal.Decimal] *)

(** A finite [Decimal]: [(-1)^sign * coefficient * 10^exponent], as
    [Decimal.as_tuple] shows it. *)
Record Decimal := { sign : bool; coefficient : N; exponent : Z }.

Module Dec.

Section Parse.
Context `{Unicode}.

(** Reads the decimal digits at the start of [s]: their value on top
    of [acc], how many they are, and the rest. *)
Fixpoint digits (s : str) (acc : N) (n : nat) : N * nat * str :=
  match s with
  | c :: s' =>
      match decimal c with
      | Some d => digits s' (10 * acc + d)%N (S n)
      | None => (acc, n, s)
      end
  | [] => (acc, n, [])
  end.

(** [Decimal(s)] for a string over the characters group 1 of
    [AMOUNT_RE] can hold (digits, white space, [.] and [,]): white
    space around the number is ignored, and what is left must be
    digits with at most one [.] and at least one digit.  The other
    forms [Decimal] reads (a sign, an exponent, underscores, Infinity,
    NaN) need a character that such a string never has; see
    [findall_AMOUNT_RE_chars]. *)
Definition of_str (s : str) : result Decimal :=
  let '(i, ni, rest) := digits (str_strip s) 0%N O in
  match rest with
  | [] =>
      match ni with
      | O => Raise InvalidOperation
      | _ => Return {| sign := false; coefficient := i; exponent := 0 |}
      end
  | c :: rest' =>
      if N.eqb c 46 then
        let '(v, n, rest'') := digits rest' i ni in
        match rest'', n with
        | [], S _ =>
            Return {| sign := false; coefficient := v;
                      exponent := - Z.of_nat (n - ni) |}
        | _, _ => Raise InvalidOperation
        end
      else Raise InvalidOperation
  end.
End Parse.

(** [Decimal(0)] *)
Definition zero : Decimal := {| sign := false; coefficient := 0; exponent := 0 |}.

(** The value of [d] in units of [10^e], for [e] at most its exponent. *)
Definition scaled (d : Decimal) (e : Z) : Z :=
  (if sign d then -1 else 1) * Z.of_N (coefficient d) * 10 ^ (exponent d - e).

(** Comparison is by numeric value, whatever the exponents. *)
Definition compare (a b : Decimal) : comparison :=
  let e := Z.min (exponent a) (exponent b) in
  Z.compare (scaled a e) (scaled b e).

Definition gtb (a b : Decimal) : bool :=
  match compare a b with Gt => true | _ => false end.

Definition leb (a b : Decimal) : bool := negb (gtb a b).

(** [max(it, default=d)]: the first of the greatest elements. *)
Fixpoint max_from (best : Decimal) (l : list Decimal) : Decimal :=
  match l with
  | [] => best
  | x :: l' => max_from (if gtb x best then x else best) l'
  end.

Definition max (l : list Decimal) (default : Decimal) : Decimal :=
  match l with
  | [] => default
  | x :: l' => max_from x l'
  end.

End Dec.

(* ================================================================= *)
(** ** Binary floating point: Python [float], SQLite [REAL] *)

Definition float := spec_float.

Module Binary64.

Definition prec : Z := 53.
Definition emax : Z := 1024.

Definition zero : float := S754_zero false.
Definition add : float -> float -> float := SFadd prec emax.
Definition ltb : float -> float -> bool := SFltb.
Definition eqb : float -> float -> bool := SFeqb.

(** The binary64 number nearest to [m / d] (ties to even), for positive
    integers [m] and [d]. *)
Definition of_ratio (s : bool) (m d : Z) : float :=
  let '(q, e, l) := SFdiv_core_binary prec emax m 0 d 0 in
  binary_round_aux prec emax s q e l.

(** [float(d)] for a [Decimal]: Python converts through the decimal
    string, correctly rounded; a value too large becomes infinity and
    one too small becomes zero, without an exception. *)
Definition of_Decimal (d : Decimal) : float :=
  match coefficient d with
  | N0 => S754_zero (sign d)
  | Npos c =>
      if 0 <=? exponent d
      then binary_normalize prec emax
             (cond_Zopp (sign d) (Zpos c * 10 ^ exponent d)) 0 false
      else of_ratio (sign d) (Zpos c) (10 ^ (- exponent d))
  end.


End Binary64.

(* ================================================================= *)
(** ** Clusters and parsing *)

Definition chr (a : ascii) : codepoint := N_of_ascii a.

(** [CLUSTERS = ("TEXAS", "SKY", "ALX")] *)
Definition CLUSTERS : list str := [lit "TEXAS"; lit "SKY"; lit "ALX"].

(** [(?:USD|\$)] *)
Definition USD_or_dollar : regex :=
  Alt (Cat (One (Single (Lit (chr "U"))))
           (Cat (One (Single (Lit (chr "S")))) (One (Single (Lit (chr "D"))))))
      (One (Single (Chr (chr "$")))).

(** [[\d\s.,]] *)
Definition amount_chars : atom :=
  OneOf [Digit; Space; Chr (chr "."); Chr (chr ",")].

(** [AMOUNT_RE], compiled with [re.I]; written out with blanks between
    its parts it is
    [(?: (?:USD|\$) \s* )?  ( [\d\s.,]+ )  \s*  (?:USD|\$)?] *)
Definition AMOUNT_RE : regex :=
  Cat (Opt (Cat USD_or_dollar (Star (Single Space))))
      (Cat (Group (Plus amount_chars))
           (Cat (Star (Single Space)) (Opt USD_or_dollar))).

Section Parsing.
Context `{Unicode}.

Definition _norm_amount (txt : str) : result Decimal :=
  let s := str_replace (chr " ") [] (str_replace 8239%N [] txt) in
  let s := if Nat.eqb (str_count (chr ",") s) 1 && Nat.eqb (str_count (chr ".") s) 0
           then str_replace (chr ",") [chr "."] s else s in
  let s := if Nat.ltb 1 (str_count (chr ",") s) && Nat.eqb (str_count (chr ".") s) 0
           then str_replace (chr ",") [] s else s in
  Dec.of_str s.

Definition extract_cluster (text : str) : option str :=
  let up := str_upper text in
  find (fun c => str_in c up) CLUSTERS.

End Parsing.


(* ================================================================= *)
(** ** The table [spends] *)

(** A row of [spends], with the columns of the CREATE TABLE statement. *)
Record Row := {
  id : Z;            (* INTEGER PRIMARY KEY AUTOINCREMENT *)
  chat_id : Z;       (* INTEGER *)
  message_id : Z;    (* INTEGER *)
  ymd : str;         (* TEXT *)
  cluster : str;     (* TEXT *)
  amount : float     (* REAL *)
}.

(** The table: its rows, oldest first. *)
Definition table := list Row.

(** One row of the grouped query: [r.cluster], [r.total], [r.n]. *)
Record Summary := { s_cluster : str; total : float; n : nat }.

(** [a] does not come after [b] under ORDER BY total DESC. *)
Definition total_ge (a b : Summary) : Prop :=
  Binary64.ltb (total a) (total b) = false.

(** What the queries leave to the SQL engine: the floating-point
    algorithms of SUM and ROUND, which differ between SQLite versions, and
    the order ORDER BY gives to rows that compare equal, which SQL leaves
    open. *)
Class Engine := {
  (** SUM over the values of a non-empty group, in scan order *)
  SUM : list float -> float;
  (** ROUND(x, digits) *)
  ROUND : float -> Z -> float;
  (** ORDER BY total DESC *)
  order_by_total_desc : list Summary -> list Summary;
  order_by_perm : forall l, Permutation (order_by_total_desc l) l;
  order_by_sorted : forall l, Sorted total_ge (order_by_total_desc l)
}.

(* ================================================================= *)
(** ** Telegram updates and the clock *)

Module Tg.
Record Chat := { id : Z }.
(** A naive local date and time, as [datetime.now()] returns it. *)
Record datetime := {
  year : N; month : N; day : N; hour : N; minute : N; second : N
}.
Record Message := {
  chat : Chat;
  message_id : Z;
  text : option str;
  caption : option str;
  date : datetime          (* when the message was sent *)
}.
Record Update := {
  effective_chat : Chat;
  effective_message : Message
}.
End Tg.

Definition digit (n : N) : codepoint := (48 + n mod 10)%N.

(** [strftime("%Y-%m-%d")], for the four-digit years the clock gives. *)
Definition strftime_ymd (t : Tg.datetime) : str :=
  let y := Tg.year t in
  let m := Tg.month t in
  let d := Tg.day t in
  [digit (y / 1000); digit (y / 100); digit (y / 10); digit y; chr "-";
   digit (m / 10); digit m; chr "-"; digit (d / 10); digit d]%N.

(** [a or b] where [a] may be [None]. *)
Definition opt_or (a : option str) (b : str) : str :=
  match a with
  | Some a' => str_or a' b
  | None => b
  end.

(* ================================================================= *)
(** ** The handlers *)

(** Where a call of [ingest] ends.  The handler itself returns [None] at
    every [return]; the constructors name the return statement reached, in
    the order of the source, and [Raised] an exception that leaves the
    handler.  [Duplicate] and [Stored] are the two ends of the database
    block, the [return] after the SELECT and the end of the function. *)
Variant outcome :=
| FilteredOrigin         (* the chat is not SOURCE_CHAT_ID *)
| FilteredEmpty          (* no text *)
| FilteredNoCluster      (* no cluster *)
| FilteredNoAmount       (* no match of AMOUNT_RE *)
| FilteredNonPositive    (* amount <= 0 *)
| Duplicate              (* the row exists *)
| Stored                 (* the row was inserted *)
| Raised (e : exception).

(** The local names of a call of [ingest] that are bound when control
    comes to the database block. *)
Module Frame.
Record t := {
  text : str;              (* the stripped text of the message *)
  cluster : str;
  matches : list str;
  amount : Decimal;
  ymd : str
}.
End Frame.

Section Handlers.
Context `{Unicode}.
(** [SOURCE_CHAT_ID], read from the environment at start-up. *)
Variable SOURCE_CHAT_ID : Z.

(** [(msg.text or msg.caption or "").strip()] *)
Definition message_text (msg : Tg.Message) : str :=
  str_strip (opt_or (Tg.text msg) (opt_or (Tg.caption msg) [])).

(** [max((_norm_amount(m) for m in matches), default=Decimal(0))] *)
Definition max_amount (matches : list str) : result Decimal :=
  ds <- for_each _norm_amount matches ;;
  Return (Dec.max ds Dec.zero).

(** The body of [ingest] up to the database block: the tests, each with
    its [return], then the reading of the clock.  [now] is that reading,
    [dt.datetime.now().astimezone()].  The result is where the call has
    ended, or the frame with which it goes on. *)
Definition ingest_tests (update : Tg.Update) (now : Tg.datetime)
  : outcome + Frame.t :=
  let msg := Tg.effective_message update in
  if negb (Z.eqb (Tg.id (Tg.effective_chat update)) SOURCE_CHAT_ID)
  then inl FilteredOrigin else
  let text := message_text msg in
  match text with
  | [] => inl FilteredEmpty
  | _ :: _ =>
  match extract_cluster text with
  | None | Some [] => inl FilteredNoCluster
  | Some cluster =>
  let matches := findall AMOUNT_RE text in
  match matches with
  | [] => inl FilteredNoAmount
  | _ :: _ =>
  match max_amount matches with
  | Raise e => inl (Raised e)
  | Return amount =>
  if Dec.leb amount Dec.zero then inl FilteredNonPositive else
  let ymd := strftime_ymd now in
  inr {| Frame.text := text; Frame.cluster := cluster;
         Frame.matches := matches; Frame.amount := amount;
         Frame.ymd := ymd |}
  end end end end.

(** [ingest(update, context)], the table threaded through.

    The name [text] is assigned in the body,
    [text = (msg.text or msg.caption or "").strip()], so it is a local
    name of the function in all of its body and hides the function [text]
    imported from SQLAlchemy.  In the database block,
    [conn.execute(text("SELECT 1 FROM spends ..."), ...)] calls the
    stripped text of the message, a [str]: [TypeError], before a statement
    is sent.  The transaction of [engine.begin()] is rolled back, neither
    the SELECT nor the INSERT is run, and the table is the one the call
    was given. *)
Definition ingest (update : Tg.Update) (now : Tg.datetime) (db : table)
  : outcome * table :=
  match ingest_tests update now with
  | inl o => (o, db)
  | inr _ => (Raised TypeError, db)
  end.

End Handlers.

Section Summary.
Context `{Engine}.

(** GROUP BY cluster: each row joins the group of its cluster, or opens
    a new one. *)
Fixpoint add_to_group (r : Row) (groups : list (str * list Row))
  : list (str * list Row) :=
  match groups with
  | [] => [(cluster r, [r])]
  | (c, rs) :: groups' =>
      if str_eqb c (cluster r) then (c, rs ++ [r]) :: groups'
      else (c, rs) :: add_to_group r groups'
  end.

Definition group_by_cluster (rows : list Row) : list (str * list Row) :=
  fold_left (fun groups r => add_to_group r groups) rows [].

(** [cluster, ROUND(SUM(amount),2) AS total, COUNT( * ) AS n] of a group *)
Definition summary_of (g : str * list Row) : Summary :=
  {| s_cluster := fst g;
     total := ROUND (SUM (List.map amount (snd g))) 2;
     n := List.length (snd g) |}.

(** [x or 0.0] for the scalar of the second query: NULL and zero are
    both false. *)
Definition or_zero (x : option float) : float :=
  match x with
  | Some (S754_zero _) | None => S754_zero false
  | Some v => v
  end.

(** The two queries of [summarize_day(context, ymd)]: the rows of the
    grouped query and the day's total.  The text built from them is
    [report_text], further down. *)
Definition summarize_day (db : table) (day : str) : list Summary * float :=
  let of_day := filter (fun r => str_eqb (ymd r) day) db in
  let rows := order_by_total_desc (List.map summary_of (group_by_cluster of_day)) in
  let scalar :=
    match of_day with
    | [] => None
    | _ :: _ => Some (ROUND (SUM (List.map amount of_day)) 2)
    end in
  (rows, or_zero scalar).

End Summary.

(* ================================================================= *)
(** ** A reference engine *)

(** Sorting by insertion, for any comparison in which two elements are
    always comparable one way or the other. *)
Section Insertion.
Variable A : Type.
Variable before : A -> A -> bool.
Hypothesis before_total : forall a b, before a b = false -> before b a = true.

Fixpoint insert_sorted (x : A) (l : list A) : list A :=
  match l with
  | [] => [x]
  | y :: l' => if before x y then x :: l else y :: insert_sorted x l'
  end.

Definition insertion_sort (l : list A) : list A :=
  fold_right insert_sorted [] l.

Lemma insert_sorted_perm x l : Permutation (insert_sorted x l) (x :: l).
Proof.
  induction l as [|y l IH]; simpl.
  - apply Permutation_refl.
  - destruct (before x y).
    + apply Permutation_refl.
    + eapply perm_trans; [apply perm_skip, IH | apply perm_swap].
Qed.

Lemma insertion_sort_perm l : Permutation (insertion_sort l) l.
Proof.
  induction l as [|x l IH]; simpl.
  - constructor.
  - eapply perm_trans; [apply insert_sorted_perm | now apply perm_skip].
Qed.

Lemma insert_sorted_hd x y l :
  before y x = true -> HdRel (fun a b => before a b = true) y l ->
  HdRel (fun a b => before a b = true) y (insert_sorted x l).
Proof.
  intros Hyx Hhd. destruct l as [|z l]; simpl.
  - now constructor.
  - destruct (before x z); constructor; trivial.
    now inversion Hhd.
Qed.

Lemma insert_sorted_sorted x l :
  Sorted (fun a b => before a b = true) l ->
  Sorted (fun a b => before a b = true) (insert_sorted x l).
Proof.
  induction 1 as [|y l Hs IH Hhd]; simpl.
  - repeat constructor.
  - destruct (before x y) eqn:E.
    + repeat constructor; trivial.
    + constructor; trivial.
      apply insert_sorted_hd; auto.
Qed.

Lemma insertion_sort_sorted l :
  Sorted (fun a b => before a b = true) (insertion_sort l).
Proof.
  induction l; simpl; [constructor | now apply insert_sorted_sorted].
Qed.
End Insertion.

Module Reference.

(** SUM: the values added one after the other to a running sum that
    starts at 0.0. *)
Definition sum (l : list float) : float :=
  fold_left Binary64.add l Binary64.zero.

(** ROUND(x, d), d >= 0: [x] rounded to [d] decimals, half away from
    zero, then to the nearest binary64.  A value beyond 2^52 has no
    fraction and is returned as it is.  SQLite gets its result by
    printing [x] with [d] decimals and reading the text back, and its
    printing nudges the value up before it cuts the digits: the two
    differ only for a binary value a few units in the last place below a
    half-way point (ROUND(2.675,2) is 2.68 in SQLite, 2.67 here). *)
Definition round (x : float) (d : Z) : float :=
  match x with
  | S754_finite s m e =>
      if SFltb (S754_finite false 4503599627370496 0) (SFabs x) then x
      else
        let num := Zpos m * 10 ^ d in
        let q := if 0 <=? e then num * 2 ^ e
                 else (2 * num + 2 ^ (- e)) / (2 * 2 ^ (- e)) in
        match q with
        | Z0 => S754_zero s
        | _ => Binary64.of_ratio s q (10 ^ d)
        end
  | _ => x
  end.

(** ORDER BY total DESC where rows of equal total come out with the
    greater label first, as SQLite 3.40 returns them for this query. *)
Definition before (a b : Summary) : bool :=
  match SFcompare (total a) (total b) with
  | Some Gt => true
  | Some Lt => false
  | _ => str_leb (s_cluster b) (s_cluster a)
  end.

Lemma str_leb_total a b : str_leb a b = false -> str_leb b a = true.
Proof.
  revert b. induction a as [|x a IH]; intros [|y b]; simpl; try discriminate; trivial.
  destruct (N.ltb_spec x y), (N.ltb_spec y x), (N.eqb_spec x y), (N.eqb_spec y x);
    simpl; try lia; auto; try discriminate.
Qed.

Lemma SFcompare_Lt_Gt a b : SFcompare a b = Some Lt -> SFcompare b a = Some Gt.
Proof.
  destruct a as [sa|sa| |sa ma ea], b as [sb|sb| |sb mb eb]; simpl;
    try discriminate;
    try (destruct sa; try destruct sb; simpl; congruence).
  destruct sa, sb; try congruence;
    rewrite (Z.compare_antisym ea eb); destruct (Z.compare ea eb); simpl;
    try congruence;
    rewrite !Pos.compare_cont_spec; simpl;
    rewrite (Pos.compare_antisym ma mb); destruct (Pos.compare ma mb); simpl;
    congruence.
Qed.

Lemma before_total a b : before a b = false -> before b a = true.
Proof.
  unfold before.
  destruct (SFcompare (total a) (total b)) as [[| |]|] eqn:E1;
    destruct (SFcompare (total b) (total a)) as [[| |]|] eqn:E2;
    intros Hf; try discriminate; trivial;
    try (now apply str_leb_total);
    try (apply SFcompare_Lt_Gt in E1; congruence);
    try (apply SFcompare_Lt_Gt in E2; congruence).
Qed.

Lemma before_total_ge a b : before a b = true -> total_ge a b.
Proof.
  unfold before, total_ge, Binary64.ltb, SFltb.
  destruct (SFcompare (total a) (total b)) as [[| |]|]; congruence.
Qed.

Definition order (l : list Summary) : list Summary :=
  insertion_sort before l.

Lemma order_sorted l : Sorted total_ge (order l).
Proof.
  unfold order.
  assert (Hs := insertion_sort_sorted before before_total l).
  induction Hs as [|x l' Hs IH Hhd]; constructor; trivial.
  destruct Hhd; constructor. now apply before_total_ge.
Qed.

#[export] Instance engine : Engine := {|
  SUM := sum;
  ROUND := round;
  order_by_total_desc := order;
  order_by_perm := insertion_sort_perm before;
  order_by_sorted := order_sorted
|}.

End Reference.

(** An update carrying a text message of the chat [c]. *)
Definition text_update (c mid : Z) (txt : str) (sent : Tg.datetime) : Tg.Update :=
  {| Tg.effective_chat := {| Tg.id := c |};
     Tg.effective_message :=
       {| Tg.chat := {| Tg.id := c |}; Tg.message_id := mid;
          Tg.text := Some txt; Tg.caption := None; Tg.date := sent |} |}.


Definition at_time (y mo d h mi : N) : Tg.datetime :=
  {| Tg.year := y; Tg.month := mo; Tg.day := d;
     Tg.hour := h; Tg.minute := mi; Tg.second := 0 |}.

(** A row of the table for the message [mid] of chat 7: the REAL nearest to
    the decimal [c * 10^e] as its amount. *)
Definition spend (mid : Z) (day cl : str) (c : N) (e : Z) : Row :=
  {| id := mid; chat_id := 7; message_id := mid; ymd := day; cluster := cl;
     amount := Binary64.of_Decimal
                 {| sign := false; coefficient := c; exponent := e |} |}.

(** The label occurs in the upper-cased text. *)
Definition mentions `{Unicode} (text label : str) : bool :=
  str_in label (str_upper text).

(* ================================================================= *)
(** * Properties *)

(** ** The handler [ingest] *)

Section IngestFacts.
Context `{Unicode}.
Variable src : Z.

(** [Decimal] raises [InvalidOperation] and nothing else. *)
Lemma of_str_raises s e : Dec.of_str s = Raise e -> e = InvalidOperation.
Proof.
  unfold Dec.of_str.
  destruct (Dec.digits (str_strip s) 0 0) as [[i ni] rest].
  destruct rest as [|c rest'].
  - destruct ni; intros E; inversion E; reflexivity.
  - destruct (N.eqb c 46); [|intros E; inversion E; reflexivity].
    destruct (Dec.digits rest' i ni) as [[v k] rest''].
    destruct rest''; [destruct k|]; intros E; inversion E; reflexivity.
Qed.

Lemma norm_amount_raises m e : _norm_amount m = Raise e -> e = InvalidOperation.
Proof. unfold _norm_amount. apply of_str_raises. Qed.

Lemma for_each_raises {A B} (f : A -> result B) l e :
  (forall a e', f a = Raise e' -> e' = InvalidOperation) ->
  for_each f l = Raise e -> e = InvalidOperation.
Proof.
  intros Hf. induction l as [|a l IH]; simpl; [discriminate|].
  destruct (f a) as [b|e'] eqn:Ea; simpl.
  - destruct (for_each f l) as [bs|e'']; simpl; [discriminate|].
    intros E. inversion E; subst. now apply IH.
  - intros E. inversion E; subst. now apply (Hf a).
Qed.

Lemma max_amount_raises ms e : max_amount ms = Raise e -> e = InvalidOperation.
Proof.
  unfold max_amount.
  destruct (for_each _norm_amount ms) as [ds|e'] eqn:E; simpl; [discriminate|].
  intros E'. inversion E'; subst.
  exact (for_each_raises _ _ norm_amount_raises E).
Qed.

(** No call of [ingest] changes the table. *)
Lemma ingest_table update now db : snd (ingest src update now db) = db.
Proof. unfold ingest. now destruct (ingest_tests _ _ _). Qed.

(** Where a call ends is decided by the tests. *)
Lemma ingest_outcome update now db :
  fst (ingest src update now db) =
  match ingest_tests src update now with
  | inl o => o
  | inr _ => Raised TypeError
  end.
Proof. unfold ingest. now destruct (ingest_tests _ _ _). Qed.

(** The tests end at one of the five returns or in [InvalidOperation]. *)
Lemma ingest_tests_inl update now o :
  ingest_tests src update now = inl o ->
  o = FilteredOrigin \/ o = FilteredEmpty \/ o = FilteredNoCluster \/
  o = FilteredNoAmount \/ o = FilteredNonPositive \/
  o = Raised InvalidOperation.
Proof.
  unfold ingest_tests.
  destruct (negb _); [intros E; inversion E; tauto|].
  destruct (message_text _) as [|c text]; [intros E; inversion E; tauto|].
  destruct (extract_cluster _) as [[|c0 cl]|];
    try (intros E; inversion E; tauto).
  destruct (findall _ _) as [|m ms]; [intros E; inversion E; tauto|].
  destruct (max_amount _) as [amount|e] eqn:Em.
  - destruct (Dec.leb _ _); intros E; inversion E; tauto.
  - apply max_amount_raises in Em. subst e. intros E; inversion E; tauto.
Qed.

(** What a call that passes the tests has gone through. *)
Lemma ingest_tests_inr update now f :
  ingest_tests src update now = inr f ->
  Tg.id (Tg.effective_chat update) = src /\
  Frame.text f = message_text (Tg.effective_message update) /\
  extract_cluster (Frame.text f) = Some (Frame.cluster f) /\
  Frame.matches f = findall AMOUNT_RE (Frame.text f) /\
  max_amount (Frame.matches f) = Return (Frame.amount f) /\
  Dec.leb (Frame.amount f) Dec.zero = false /\
  Frame.ymd f = strftime_ymd now.
Proof.
  unfold ingest_tests.
  destruct (Z.eqb_spec (Tg.id (Tg.effective_chat update)) src) as [Hs|Hs];
    simpl; [|discriminate].
  destruct (message_text _) as [|c text] eqn:Et; [discriminate|].
  destruct (extract_cluster _) as [[|c0 cl]|] eqn:Ec; try discriminate.
  destruct (findall _ _) as [|m ms] eqn:Ef; [discriminate|].
  destruct (max_amount _) as [amount|e] eqn:Em; [|discriminate].
  destruct (Dec.leb _ _) eqn:El; [discriminate|].
  intros E. inversion E; subst; simpl. repeat split; trivial.
  now rewrite Ef.
Qed.

(** The call never comes to the end of the database block, whichever. *)
Lemma ingest_never_Stored update now db :
  fst (ingest src update now db) <> Stored /\
  fst (ingest src update now db) <> Duplicate.
Proof.
  rewrite ingest_outcome.
  destruct (ingest_tests src update now) as [o|f] eqn:E;
    [|split; discriminate].
  apply ingest_tests_inl in E.
  destruct E as [->|[->|[->|[->|[->| ->]]]]]; split; discriminate.
Qed.


End IngestFacts.

(** C8. Whatever way a call of [ingest] ends, the table is the one it was
    given, except when it ends in [Stored]: then exactly one row has been
    added at the end.  The filtering outcomes (wrong chat, no text, no
    cluster, no amount match, amount not positive) are among the former,
    and so is the [TypeError] of the database block; no call ends in
    [Stored]. *)
Theorem ingest_store_effect `{Unicode} src update now db :
  match fst (ingest src update now db) with
  | Stored => exists row, snd (ingest src update now db) = db ++ [row]
  | _ => snd (ingest src update now db) = db
  end.
Proof.
  destruct (ingest_never_Stored src update now db) as [Hs _].
  pose proof (ingest_table src update now db) as Hdb.
  destruct (fst (ingest src update now db)); trivial. congruence.
Qed.

(** ** The day of a record *)

Lemma digit_inj a b : (a < 10)%N -> (b < 10)%N -> digit a = digit b -> a = b.
Proof.
  unfold digit. intros Ha Hb E.
  rewrite (N.mod_small a 10), (N.mod_small b 10) in E by trivial. lia.
Qed.

(** Two numbers below 100 with the same two digits are equal. *)
Lemma two_digits_inj a b :
  (a < 100)%N -> (b < 100)%N ->
  digit (a / 10) = digit (b / 10) -> digit a = digit b -> a = b.
Proof.
  intros Ha Hb E1 E2. unfold digit in E2.
  assert (Hq : (a / 10 = b / 10)%N).
  { apply digit_inj; trivial; apply N.Div0.div_lt_upper_bound; lia. }
  assert (Hr : (a mod 10 = b mod 10)%N) by lia.
  rewrite (N.div_mod a 10), (N.div_mod b 10) by lia. now rewrite Hq, Hr.
Qed.





(** C1. A text with a cluster keyword and a positive amount is not always
    stored.  In "TEXAS spend 500" the blank between the two words matches
    AMOUNT_RE by itself; normalised it is the empty string, [Decimal]
    raises on it, and the handler is left by the exception with nothing
    stored, whatever the key and the table. *)
Theorem ingest_blank_between_words_raises :
  extract_cluster (lit "TEXAS spend 500") = Some (lit "TEXAS") /\
  findall AMOUNT_RE (lit "TEXAS spend 500") = [lit " "; lit " 500"] /\
  _norm_amount (lit " ") = Raise InvalidOperation /\
  _norm_amount (lit " 500") =
    Return {| sign := false; coefficient := 500; exponent := 0 |} /\
  forall src mid sent now db,
    ingest src (text_update src mid (lit "TEXAS spend 500") sent) now db
    = (Raised InvalidOperation, db).
Proof.
  repeat split; try (vm_compute; reflexivity).
  intros. unfold ingest, ingest_tests, text_update; simpl.
  rewrite Z.eqb_refl. reflexivity.
Qed.

(** C2. [_norm_amount] on the four strings of the claim: the two that have
    both a comma and a period go to [Decimal] as they are and raise; the
    other two are read as 1234.56 and 3400. *)
Theorem norm_amount_examples :
  _norm_amount (lit "1.234,56") = Raise InvalidOperation /\
  _norm_amount (lit "1,234.56") = Raise InvalidOperation /\
  _norm_amount (lit "1234,56") =
    Return {| sign := false; coefficient := 123456; exponent := -2 |} /\
  _norm_amount (lit "3 400") =
    Return {| sign := false; coefficient := 3400; exponent := 0 |}.
Proof. repeat split; vm_compute; reflexivity. Qed.

(** ** What is not stored *)

Lemma extract_cluster_In `{Unicode} text c :
  extract_cluster text = Some c -> In c CLUSTERS.
Proof. intros E. apply find_some in E. tauto. Qed.

(** C4. No call of [ingest] adds a record to the table, so none is stored
    with an amount that is not above zero or with a cluster that is not a
    label.  A message whose text has none of the labels ends at one of
    the first three returns; a message whose amount is zero or below ends
    at a return, that of the test [amount <= 0] at the latest; and a call
    that passes all the tests has a cluster of CLUSTERS and an amount
    above zero. *)
Theorem ingest_stores_no_unfit_record `{Unicode} src update now db :
  let text := message_text (Tg.effective_message update) in
  let r := ingest src update now db in
  snd r = db /\
  ((forall c, In c CLUSTERS -> mentions text c = false) ->
   fst r = FilteredOrigin \/ fst r = FilteredEmpty \/
   fst r = FilteredNoCluster) /\
  (forall amt,
     max_amount (findall AMOUNT_RE text) = Return amt ->
     Dec.leb amt Dec.zero = true ->
     fst r = FilteredOrigin \/ fst r = FilteredEmpty \/
     fst r = FilteredNoCluster \/ fst r = FilteredNoAmount \/
     fst r = FilteredNonPositive) /\
  (forall f, ingest_tests src update now = inr f ->
     In (Frame.cluster f) CLUSTERS /\
     Dec.gtb (Frame.amount f) Dec.zero = true).
Proof.
  intros text r. split; [apply ingest_table|]. split; [|split].
  - intros Hno. subst r. unfold ingest, ingest_tests. fold text.
    destruct (negb _); simpl; [tauto|].
    destruct text as [|c0 text0] eqn:Et; simpl; [tauto|].
    destruct (extract_cluster (c0 :: text0)) as [cl|] eqn:Ec; simpl; [|tauto].
    exfalso. unfold extract_cluster in Ec. apply find_some in Ec.
    destruct Ec as [Hin Hc]. specialize (Hno cl Hin).
    unfold mentions in Hno. congruence.
  - intros amt Hmax Hle. subst r. unfold ingest, ingest_tests. fold text.
    destruct (negb _); simpl; [tauto|].
    destruct text as [|c0 text0] eqn:Et; simpl; [tauto|].
    destruct (extract_cluster (c0 :: text0)) as [[|x cl]|]; simpl; try tauto.
    rewrite Hmax, Hle.
    destruct (findall AMOUNT_RE (c0 :: text0)); simpl; tauto.
  - intros f E.
    destruct (ingest_tests_inr _ _ _ E) as (_ & _ & Hc & _ & _ & Hle & _).
    split; [now apply extract_cluster_In in Hc|].
    unfold Dec.leb in Hle. now destruct (Dec.gtb _ _).
Qed.

Lemma ingest_stores_no_unfit_record_witness :
  let now := at_time 2024 3 7 9 31 in
  let zero := text_update 7 1 (lit "ALX 0.00") now in
  let other := text_update 7 2 (lit "rent 500") now in
  let plain := text_update 7 3 (lit "SKY 500") now in
  ingest 7 zero now [] = (FilteredNonPositive, []) /\
  ingest 7 other now [] = (FilteredNoCluster, []) /\
  (exists f, ingest_tests 7 plain now = inr f /\
             In (Frame.cluster f) CLUSTERS /\
             Dec.gtb (Frame.amount f) Dec.zero = true).
Proof.
  intros now zero other plain. split; [|split].
  - destruct (@ingest_stores_no_unfit_record basic_latin 7 zero now [])
      as (Hdb & _ & Hle & _).
    specialize (Hle {| sign := false; coefficient := 0; exponent := -2 |}
                    eq_refl eq_refl).
    reflexivity.
  - destruct (@ingest_stores_no_unfit_record basic_latin 7 other now [])
      as (Hdb & Hno & _).
    assert (Hnone : forall c, In c CLUSTERS ->
              mentions (message_text (Tg.effective_message other)) c = false)
      by (intros c [<-|[<-|[<-|[]]]]; reflexivity).
    specialize (Hno Hnone). reflexivity.
  - destruct (ingest_tests 7 plain now) as [o|f] eqn:E;
      [vm_compute in E; discriminate|].
    exists f. split; [reflexivity|].
    destruct (@ingest_stores_no_unfit_record basic_latin 7 plain now [])
      as (_ & _ & _ & Hpass).
    exact (Hpass f E).
Defined.

(** ** The cluster tagger *)

(** C10. When the upper-cased text holds at least two of the three labels,
    the tag is TEXAS if TEXAS is one of them and SKY otherwise: the first
    of them in the order of [CLUSTERS], wherever they stand in the text. *)
Theorem extract_cluster_priority `{Unicode} text :
  (2 <= List.length (filter (mentions text) CLUSTERS))%nat ->
  extract_cluster text =
    Some (if mentions text (lit "TEXAS") then lit "TEXAS" else lit "SKY").
Proof.
  unfold extract_cluster, mentions, CLUSTERS. simpl filter. simpl find.
  destruct (str_in (lit "TEXAS") (str_upper text)); [reflexivity|].
  destruct (str_in (lit "SKY") (str_upper text)); [reflexivity|].
  destruct (str_in (lit "ALX") (str_upper text)); simpl; lia.
Qed.

Lemma extract_cluster_priority_witness :
  (2 <= List.length (filter (mentions (lit "sky first, then texas")) CLUSTERS))%nat /\
  extract_cluster (lit "sky first, then texas") = Some (lit "TEXAS").
Proof.
  split.
  - vm_compute. lia.
  - apply (@extract_cluster_priority basic_latin (lit "sky first, then texas")).
    vm_compute. lia.
Defined.

(** ** Amounts that cannot be read *)

Lemma for_each_In_Raise {A B} (f : A -> result B) l m :
  (forall a e, f a = Raise e -> e = InvalidOperation) ->
  In m l -> f m = Raise InvalidOperation ->
  for_each f l = Raise InvalidOperation.
Proof.
  intros Hf Hin Hm.
  destruct (for_each f l) as [bs|e] eqn:E.
  - exfalso. revert bs E. induction l as [|a l IH]; [destruct Hin|].
    simpl. intros bs. destruct Hin as [->|Hin].
    + now rewrite Hm.
    + destruct (f a) as [b|e]; simpl; [|discriminate].
      destruct (for_each f l) as [bs'|e]; simpl; [|discriminate].
      intros _. now apply (IH Hin bs').
  - f_equal. exact (for_each_raises _ _ Hf E).
Qed.



(** ** The queries of [summarize_day] *)

Lemma str_eqb_eq a b : str_eqb a b = true <-> a = b.
Proof.
  unfold str_eqb. destruct (list_eq_dec N.eq_dec a b); split; congruence.
Qed.

Lemma str_eqb_neq a b : str_eqb a b = false <-> a <> b.
Proof.
  unfold str_eqb. destruct (list_eq_dec N.eq_dec a b); split; congruence.
Qed.

(** The rows of a cluster. *)
Definition in_cluster (c : str) (r : Row) : bool := str_eqb (cluster r) c.

Section Groups.

Lemma add_to_group_keys r groups :
  (In (cluster r) (List.map fst groups) /\
   List.map fst (add_to_group r groups) = List.map fst groups) \/
  (~ In (cluster r) (List.map fst groups) /\
   List.map fst (add_to_group r groups) = List.map fst groups ++ [cluster r]).
Proof.
  induction groups as [|[c rs] groups IH]; simpl.
  - right. tauto.
  - destruct (str_eqb c (cluster r)) eqn:E.
    + apply str_eqb_eq in E. left. simpl. auto.
    + apply str_eqb_neq in E. simpl.
      destruct IH as [[Hin ->]|[Hnin ->]]; [left|right]; split; auto.
      intros [?|?]; auto.
Qed.

Lemma add_to_group_In r groups c rs :
  NoDup (List.map fst groups) ->
  In (c, rs) (add_to_group r groups) ->
  (c <> cluster r /\ In (c, rs) groups) \/
  (c = cluster r /\ exists rs0, In (c, rs0) groups /\ rs = rs0 ++ [r]) \/
  (c = cluster r /\ rs = [r] /\ ~ In c (List.map fst groups)).
Proof.
  induction groups as [|[c0 rs0] groups IH]; simpl; intros Hnd Hin.
  - destruct Hin as [Hin|[]]. inversion Hin; subst. right. right. tauto.
  - inversion Hnd as [|? ? Hnotin Hnd']; subst.
    destruct (str_eqb c0 (cluster r)) eqn:E.
    + apply str_eqb_eq in E. subst c0. destruct Hin as [Hin|Hin].
      * inversion Hin; subst. right. left. split; trivial. eauto.
      * left. split; auto. intros ->. apply Hnotin.
        change (cluster r) with (fst (cluster r, rs)). now apply in_map.
    + apply str_eqb_neq in E. destruct Hin as [Hin|Hin].
      * inversion Hin; subst. left. auto.
      * destruct (IH Hnd' Hin) as [[Hc H1]|[[Hc (rs1 & H1 & H2)]|(Hc & H1 & H2)]].
        -- left. auto.
        -- right. left. split; trivial. exists rs1. auto.
        -- right. right. repeat split; trivial. subst c. intros [?|?]; auto.
Qed.

(** The groups of the rows seen so far: one per cluster, each holding the
    rows of its cluster in scan order. *)
Definition grouped (groups : list (str * list Row)) (seen : list Row) : Prop :=
  NoDup (List.map fst groups) /\
  (forall c rs, In (c, rs) groups -> rs = filter (in_cluster c) seen /\ rs <> []) /\
  (forall r, In r seen -> In (cluster r) (List.map fst groups)).

Lemma filter_in_cluster_snoc c seen r :
  filter (in_cluster c) (seen ++ [r]) =
  filter (in_cluster c) seen ++ (if str_eqb (cluster r) c then [r] else []).
Proof. now rewrite filter_app. Qed.

Lemma add_to_group_grouped r groups seen :
  grouped groups seen -> grouped (add_to_group r groups) (seen ++ [r]).
Proof.
  intros (Hnd & Hrows & Hcov). repeat split.
  - destruct (add_to_group_keys r groups) as [[_ ->]|[Hnin ->]]; trivial.
    apply NoDup_rev in Hnd. rewrite <- (rev_involutive (_ ++ _)).
    apply NoDup_rev. rewrite rev_app_distr. simpl. constructor; trivial.
    now rewrite <- in_rev.
  - destruct (add_to_group_In r groups c rs Hnd H)
      as [[Hc Hin]|[[Hc (rs0 & Hin & ->)]|(Hc & -> & Hnin)]];
      rewrite filter_in_cluster_snoc.
    + destruct (Hrows _ _ Hin) as [-> _].
      assert (E : str_eqb (cluster r) c = false) by (apply str_eqb_neq; congruence).
      rewrite E. now rewrite app_nil_r.
    + destruct (Hrows _ _ Hin) as [-> _].
      assert (E : str_eqb (cluster r) c = true) by (apply str_eqb_eq; congruence).
      now rewrite E.
    + assert (E : str_eqb (cluster r) c = true) by (apply str_eqb_eq; congruence).
      rewrite E.
      assert (Hnil : filter (in_cluster c) seen = []).
      { destruct (filter (in_cluster c) seen) as [|r0 l] eqn:Ef; trivial.
        assert (Hr0 : In r0 (filter (in_cluster c) seen)) by (rewrite Ef; now left).
        apply filter_In in Hr0. destruct Hr0 as [Hr0 Hc0].
        apply str_eqb_eq in Hc0. apply Hcov in Hr0. congruence. }
      now rewrite Hnil.
  - destruct (add_to_group_In r groups c rs Hnd H)
      as [[Hc Hin]|[[Hc (rs0 & Hin & ->)]|(Hc & -> & Hnin)]].
    + now destruct (Hrows _ _ Hin).
    + now destruct rs0.
    + discriminate.
  - intros r' Hin. apply in_app_or in Hin.
    destruct (add_to_group_keys r groups) as [[Hk ->]|[Hk ->]].
    + destruct Hin as [Hin|[<-|[]]]; auto.
    + apply in_or_app. destruct Hin as [Hin|[<-|[]]]; [left|right]; auto.
      now left.
Qed.

Lemma fold_add_to_group_grouped rows :
  forall groups seen,
    grouped groups seen ->
    grouped (fold_left (fun g r => add_to_group r g) rows groups) (seen ++ rows).
Proof.
  induction rows as [|r rows IH]; simpl; intros groups seen Hg.
  - now rewrite app_nil_r.
  - replace (seen ++ r :: rows) with ((seen ++ [r]) ++ rows)
      by now rewrite <- app_assoc.
    apply IH. now apply add_to_group_grouped.
Qed.

Lemma group_by_cluster_grouped rows : grouped (group_by_cluster rows) rows.
Proof.
  apply (@fold_add_to_group_grouped rows [] []).
  split; [constructor|]. split; simpl; tauto.
Qed.

(** Number of rows in all the groups. *)
Definition rows_in (groups : list (str * list Row)) : nat :=
  list_sum (List.map (fun g => List.length (snd g)) groups).

Lemma add_to_group_rows_in r groups :
  rows_in (add_to_group r groups) = S (rows_in groups).
Proof.
  unfold rows_in. induction groups as [|[c rs] groups IH]; simpl; trivial.
  destruct (str_eqb c (cluster r)); simpl.
  - rewrite length_app. simpl. lia.
  - rewrite IH. lia.
Qed.

Lemma group_by_cluster_rows_in rows :
  rows_in (group_by_cluster rows) = List.length rows.
Proof.
  unfold group_by_cluster.
  enough (forall groups,
            rows_in (fold_left (fun g r => add_to_group r g) rows groups)
            = (rows_in groups + List.length rows)%nat) as Hg by apply (Hg []).
  induction rows as [|r rows IH]; simpl; intros groups; [lia|].
  rewrite IH, add_to_group_rows_in. lia.
Qed.

Lemma Permutation_list_sum l l' :
  Permutation l l' -> list_sum l = list_sum l'.
Proof. induction 1; simpl; lia. Qed.

End Groups.

Section SummaryFacts.
Context `{Engine}.

Lemma summary_of_cluster g : s_cluster (summary_of g) = fst g.
Proof. reflexivity. Qed.

Lemma summary_rows_perm db day :
  Permutation (fst (summarize_day db day))
    (List.map summary_of
       (group_by_cluster (filter (fun r => str_eqb (ymd r) day) db))).
Proof. unfold summarize_day; simpl. apply order_by_perm. Qed.

(** When all the rows are of one cluster there is one group. *)
Lemma group_by_cluster_single rows c :
  rows <> [] -> (forall r, In r rows -> cluster r = c) ->
  group_by_cluster rows = [(c, rows)].
Proof.
  intros Hne Hall.
  destruct (group_by_cluster_grouped rows) as (Hnd & Hrows & Hcov).
  assert (Hfilter : filter (in_cluster c) rows = rows).
  { clear -Hall. induction rows as [|r rows IH]; simpl; trivial.
    unfold in_cluster at 1. rewrite (Hall r (or_introl eq_refl)).
    assert (E : str_eqb c c = true) by now apply str_eqb_eq.
    rewrite E. f_equal. apply IH. intros; apply Hall; now right. }
  assert (Hkey : forall c' rs, In (c', rs) (group_by_cluster rows) ->
                               c' = c /\ rs = rows).
  { intros c' rs Hin. destruct (Hrows _ _ Hin) as [Hrs Hnil].
    destruct rs as [|r0 rs0]; [congruence|].
    assert (Hr0 : In r0 (filter (in_cluster c') rows)) by (rewrite <- Hrs; now left).
    apply filter_In in Hr0. destruct Hr0 as [Hr0 Hc0].
    apply str_eqb_eq in Hc0. rewrite (Hall _ Hr0) in Hc0. subst c'.
    split; trivial. now rewrite Hrs. }
  destruct (group_by_cluster rows) as [|[c1 rs1] [|[c2 rs2] groups]].
  - destruct rows as [|r rows]; [congruence|].
    destruct (Hcov r (or_introl eq_refl)).
  - destruct (Hkey c1 rs1 (or_introl eq_refl)) as [-> ->]. reflexivity.
  - destruct (Hkey c1 rs1 (or_introl eq_refl)) as [-> _].
    destruct (Hkey c2 rs2 (or_intror (or_introl eq_refl))) as [-> _].
    inversion Hnd as [|? ? Hnotin _]. destruct Hnotin. now left.
Qed.

End SummaryFacts.

(** The claim about ties: each row is followed by one of smaller total, or
    of equal total and a label that is not smaller. *)
Definition total_desc_then_label (a b : Summary) : Prop :=
  Binary64.ltb (total b) (total a) = true \/
  (Binary64.eqb (total a) (total b) = true /\
   str_leb (s_cluster a) (s_cluster b) = true).

(** C7, as the claim has it, fails: the query orders by total alone.  With
    SKY and ALX both at 100, the reference engine, like SQLite 3.40,
    returns SKY before ALX. *)
Lemma ties_not_in_label_order :
  let db := [spend 1 (lit "2024-03-07") (lit "SKY") 100 0;
             spend 2 (lit "2024-03-07") (lit "ALX") 100 0] in
  let rows := fst (@summarize_day Reference.engine db (lit "2024-03-07")) in
  List.map s_cluster rows = [lit "SKY"; lit "ALX"] /\
  List.map total rows = [S754_finite false 7036874417766400 (-46);
                         S754_finite false 7036874417766400 (-46)] /\
  ~ Sorted total_desc_then_label rows.
Proof.
  intros db rows.
  assert (E : rows = [ {| s_cluster := lit "SKY";
                          total := S754_finite false 7036874417766400 (-46);
                          n := 1 |};
                       {| s_cluster := lit "ALX";
                          total := S754_finite false 7036874417766400 (-46);
                          n := 1 |} ]) by (vm_compute; reflexivity).
  rewrite E. repeat split.
  intros Hs. inversion Hs as [|? ? _ Hhd]; subst.
  inversion Hhd as [|? ? Hrel]; subst.
  destruct Hrel as [Hlt|[_ Hle]]; vm_compute in *; discriminate.
Qed.

(** C7, amended. The rows of the grouped query come sorted by total,
    greatest first, with nothing said about rows of equal total.  There is
    one row for each cluster that has records on that day, and it carries
    the rounded sum and the number of these records. *)
Theorem summary_rows_sorted_by_total `{Engine} db day :
  let of_day := filter (fun r => str_eqb (ymd r) day) db in
  let rows := fst (summarize_day db day) in
  Sorted total_ge rows /\
  NoDup (List.map s_cluster rows) /\
  (forall r, In r of_day -> In (cluster r) (List.map s_cluster rows)) /\
  (forall row, In row rows ->
     let rs := filter (in_cluster (s_cluster row)) of_day in
     rs <> [] /\
     total row = ROUND (SUM (List.map amount rs)) 2 /\
     n row = List.length rs).
Proof.
  intros of_day rows.
  assert (Hperm := summary_rows_perm db day). fold of_day rows in Hperm.
  destruct (group_by_cluster_grouped of_day) as (Hnd & Hrows & Hcov).
  assert (Hkeys : List.map s_cluster (List.map summary_of (group_by_cluster of_day))
                  = List.map fst (group_by_cluster of_day))
    by (rewrite map_map; reflexivity).
  repeat split.
  - apply order_by_sorted.
  - apply (Permutation_NoDup (l := List.map fst (group_by_cluster of_day))); trivial.
    rewrite <- Hkeys. apply Permutation_map. now apply Permutation_sym.
  - intros r Hr. apply Hcov in Hr. rewrite <- Hkeys in Hr.
    eapply Permutation_in; [|exact Hr].
    apply Permutation_map. now apply Permutation_sym.
  - apply (Permutation_in _ Hperm) in H0. apply in_map_iff in H0.
    destruct H0 as ([c rs] & <- & Hin). simpl.
    destruct (Hrows _ _ Hin) as [<- Hne]. exact Hne.
  - apply (Permutation_in _ Hperm) in H0. apply in_map_iff in H0.
    destruct H0 as ([c rs] & <- & Hin). simpl.
    destruct (Hrows _ _ Hin) as [<- Hne]. reflexivity.
  - apply (Permutation_in _ Hperm) in H0. apply in_map_iff in H0.
    destruct H0 as ([c rs] & <- & Hin). simpl.
    destruct (Hrows _ _ Hin) as [<- Hne]. reflexivity.
Qed.

Lemma summary_rows_sorted_by_total_witness :
  let db := [spend 1 (lit "2024-03-07") (lit "ALX") 100 0;
             spend 2 (lit "2024-03-07") (lit "SKY") 500 0;
             spend 3 (lit "2024-03-07") (lit "SKY") 300 0] in
  let rows := fst (@summarize_day Reference.engine db (lit "2024-03-07")) in
  Sorted total_ge rows /\
  In (lit "ALX") (List.map s_cluster rows) /\
  (forall row, In row rows -> n row = 2%nat \/ n row = 1%nat).
Proof.
  intros db rows.
  destruct (@summary_rows_sorted_by_total Reference.engine db (lit "2024-03-07"))
    as (Hsorted & _ & Hcov & Hrows).
  split; [exact Hsorted|]. split.
  - apply (Hcov (spend 1 (lit "2024-03-07") (lit "ALX") 100 0)).
    vm_compute. left. reflexivity.
  - intros row Hin. destruct (Hrows row Hin) as (_ & _ & ->).
    vm_compute in Hin. destruct Hin as [<-|[<-|[]]]; vm_compute; auto.
Defined.

(** The example of the specification: 500 and 300 for SKY, 100 for ALX. *)
Example summary_SKY_ALX :
  let db := [spend 1 (lit "2024-03-07") (lit "SKY") 500 0;
             spend 2 (lit "2024-03-07") (lit "SKY") 300 0;
             spend 3 (lit "2024-03-07") (lit "ALX") 100 0] in
  fst (@summarize_day Reference.engine db (lit "2024-03-07")) =
    [ {| s_cluster := lit "SKY";
         total := S754_finite false 7036874417766400 (-43); n := 2 |};
      {| s_cluster := lit "ALX";
         total := S754_finite false 7036874417766400 (-46); n := 1 |} ].
Proof. vm_compute. reflexivity. Qed.

(** C5, as the claim has it, fails: 0.004 for TEXAS and 0.004 for SKY give
    two cluster totals of 0.0, and a total of the day of 0.01. *)
Lemma cluster_totals_do_not_add_up :
  let db := [spend 1 (lit "2024-03-07") (lit "TEXAS") 4 (-3);
             spend 2 (lit "2024-03-07") (lit "SKY") 4 (-3)] in
  let r := @summarize_day Reference.engine db (lit "2024-03-07") in
  List.map total (fst r) = [S754_zero false; S754_zero false] /\
  snd r = S754_finite false 5764607523034235 (-59) /\
  Binary64.eqb (fold_left Binary64.add (List.map total (fst r)) Binary64.zero)
               (snd r) = false.
Proof. vm_compute. repeat split. Qed.

(** C5, amended. The numbers of records of the rows add up to the number
    of records of the day.  The totals are rounded one by one, each row's
    from the sum of its cluster and the total of the day from the sum of
    all the amounts; when all the records of the day are of one cluster,
    the one row has the total of the day. *)
Theorem summary_counts_add_up `{Engine} db day :
  let of_day := filter (fun r => str_eqb (ymd r) day) db in
  let rows := fst (summarize_day db day) in
  list_sum (List.map n rows) = List.length of_day /\
  (forall c, of_day <> [] -> (forall r, In r of_day -> cluster r = c) ->
     rows = [ {| s_cluster := c;
                 total := ROUND (SUM (List.map amount of_day)) 2;
                 n := List.length of_day |} ] /\
     snd (summarize_day db day) =
       or_zero (Some (ROUND (SUM (List.map amount of_day)) 2))).
Proof.
  intros of_day rows. split.
  - subst rows.
    rewrite (Permutation_list_sum
               (Permutation_map n (summary_rows_perm db day))).
    fold of_day. rewrite map_map. simpl.
    apply (group_by_cluster_rows_in of_day).
  - intros c Hne Hall. subst rows. unfold summarize_day. fold of_day. simpl.
    rewrite (group_by_cluster_single Hne Hall). simpl. split.
    + apply Permutation_length_1_inv. apply Permutation_sym, order_by_perm.
    + destruct of_day; [congruence|reflexivity].
Qed.

Lemma summary_counts_add_up_witness :
  let db := [spend 1 (lit "2024-03-07") (lit "SKY") 500 0;
             spend 2 (lit "2024-03-07") (lit "SKY") 300 0] in
  let of_day := filter (fun r => str_eqb (ymd r) (lit "2024-03-07")) db in
  let r := @summarize_day Reference.engine db (lit "2024-03-07") in
  list_sum (List.map n (fst r)) = 2%nat /\
  fst r = [ {| s_cluster := lit "SKY";
               total := Reference.round (Reference.sum (List.map amount of_day)) 2;
               n := 2 |} ] /\
  snd r = S754_finite false 7036874417766400 (-43).
Proof.
  intros db of_day r.
  destruct (@summary_counts_add_up Reference.engine db (lit "2024-03-07"))
    as [Hn Hone].
  split; [exact Hn|].
  apply (Hone (lit "SKY")).
  - vm_compute. discriminate.
  - vm_compute. intros r0 [<-|[<-|[]]]; reflexivity.
Defined.

(** ** The amounts of the table *)





(** ** The matches of AMOUNT_RE *)

Section Matches.
Context `{Unicode}.

Fixpoint group_free (r : regex) : bool :=
  match r with
  | One _ | Star _ | Plus _ => true
  | Cat r1 r2 | Alt r1 r2 => group_free r1 && group_free r2
  | Opt r1 => group_free r1
  | Group _ => false
  end.

(** A repetition that succeeds has taken some characters of its set and
    handed the rest to what follows. *)
Lemma star_inv a s cap k res :
  star a s cap k = Some res ->
  exists pre s',
    s = pre ++ s' /\ Forall (fun c => atom_match a c = true) pre /\
    k s' cap = Some res.
Proof.
  induction s as [|c s IH]; simpl; intros E.
  - exists [], []. auto.
  - destruct (atom_match a c) eqn:Ea.
    + destruct (star a s cap k) as [r0|] eqn:Es.
      * inversion E; subst. destruct (IH eq_refl) as (pre & s' & -> & Hpre & Hk).
        exists (c :: pre), s'. auto.
      * exists [], (c :: s). auto.
    + exists [], (c :: s). auto.
Qed.

(** A pattern without a group hands on the capture it was given. *)
Lemma run_group_free r :
  group_free r = true ->
  forall s cap k res, run r s cap k = Some res -> exists s', k s' cap = Some res.
Proof.
  induction r as [a|r1 IH1 r2 IH2|r1 IH1 r2 IH2|r1 IH1|a|a|r1 IH1];
    simpl; intros Hg s cap k res E; try discriminate.
  - destruct s as [|c s]; [discriminate|].
    destruct (atom_match a c); [eauto|discriminate].
  - apply andb_prop in Hg. destruct Hg as [Hg1 Hg2].
    destruct (IH1 Hg1 _ _ _ _ E) as (s1 & E1).
    exact (IH2 Hg2 _ _ _ _ E1).
  - apply andb_prop in Hg. destruct Hg as [Hg1 Hg2].
    destruct (run r1 s cap k) eqn:E1.
    + rewrite <- E1 in E. exact (IH1 Hg1 _ _ _ _ E).
    + exact (IH2 Hg2 _ _ _ _ E).
  - destruct (run r1 s cap k) eqn:E1.
    + rewrite <- E1 in E. exact (IH1 Hg _ _ _ _ E).
    + eauto.
  - destruct (star_inv _ _ _ _ E) as (pre & s' & _ & _ & Hk). eauto.
  - destruct s as [|c s]; [discriminate|].
    destruct (atom_match a c); [|discriminate].
    destruct (star_inv _ _ _ _ E) as (pre & s' & _ & _ & Hk). eauto.
Qed.

Lemma firstn_app_minus (l1 l2 : str) :
  firstn (List.length (l1 ++ l2) - List.length l2) (l1 ++ l2) = l1.
Proof.
  rewrite length_app.
  replace (List.length l1 + List.length l2 - List.length l2)%nat
    with (List.length l1 + 0)%nat by lia.
  rewrite firstn_app_2. simpl. apply app_nil_r.
Qed.

(** Group 1 of a match of AMOUNT_RE is a non-empty run of digits, white
    space, periods and commas. *)
Lemma match_at_AMOUNT_RE_inv s rest cap :
  match_at AMOUNT_RE s = Some (rest, cap) ->
  exists g, cap = Some g /\ g <> [] /\
            Forall (fun c => atom_match amount_chars c = true) g.
Proof.
  unfold match_at, AMOUNT_RE. intros E.
  change (run (Cat ?p ?q) s None ?k)
    with (run p s None (fun s' cap' => run q s' cap' k)) in E.
  apply run_group_free in E; [|reflexivity].
  destruct E as (s1 & E).
  change (run (Cat (Group (Plus amount_chars)) ?q) s1 None ?k)
    with (run (Plus amount_chars) s1 None
            (fun s' _ => run q s'
               (Some (firstn (List.length s1 - List.length s') s1)) k)) in E.
  cbn [run] in E.
  destruct s1 as [|c s1]; [discriminate|].
  destruct (atom_match amount_chars c) eqn:Ec; [|discriminate].
  apply star_inv in E. destruct E as (pre & s' & -> & Hpre & E).
  change (c :: pre ++ s') with ((c :: pre) ++ s') in E.
  rewrite firstn_app_minus in E.
  apply (run_group_free (Cat (Star (Single Space)) (Opt USD_or_dollar))) in E;
    [|reflexivity].
  destruct E as (s'' & E). inversion E; subst.
  exists (c :: pre). repeat split; [discriminate|]. now constructor.
Qed.

Lemma findall_from_In r s :
  forall skip m,
    In m (findall_from r skip s) ->
    exists s0 rest cap, match_at r s0 = Some (rest, cap) /\ m = group1 cap.
Proof.
  induction s as [|c s IH]; simpl; intros skip m Hin.
  - destruct skip; [|destruct Hin].
    destruct (match_at r []) as [[rest cap]|] eqn:E; [|destruct Hin].
    destruct Hin as [<-|[]]. eauto.
  - destruct skip; [|eauto].
    destruct (match_at r (c :: s)) as [[rest cap]|] eqn:E; [|eauto].
    destruct Hin as [<-|Hin]; eauto.
Qed.

(** Every string that [ingest] hands to [_norm_amount] is non-empty and
    made of digits, white space, periods and commas. *)
Lemma findall_AMOUNT_RE_chars s m :
  In m (findall AMOUNT_RE s) ->
  m <> [] /\ Forall (fun c => atom_match amount_chars c = true) m.
Proof.
  intros Hin. apply findall_from_In in Hin.
  destruct Hin as (s0 & rest & cap & E & ->).
  apply match_at_AMOUNT_RE_inv in E. destruct E as (g & -> & Hne & Hg).
  simpl. auto.
Qed.

End Matches.


(* ================================================================= *)
(** * Further properties of the code *)

(** ** [_norm_amount] *)

Section NormAmountFacts.
Context `{Unicode}.

Lemma str_replace_app old new a b :
  str_replace old new (a ++ b) = str_replace old new a ++ str_replace old new b.
Proof. unfold str_replace. apply flat_map_app. Qed.

Lemma In_str_remove c x s :
  In x (str_replace c [] s) <-> In x s /\ x <> c.
Proof.
  unfold str_replace. rewrite in_flat_map. split.
  - intros (y & Hy & Hx). destruct (N.eqb_spec y c); simpl in Hx; [tauto|].
    destruct Hx as [<-|[]]. auto.
  - intros [Hx Hne]. exists x. split; trivial.
    destruct (N.eqb_spec x c); [congruence|now left].
Qed.

Lemma str_count_0 c s : str_count c s = O <-> ~ In c s.
Proof.
  unfold str_count. induction s as [|x s IH]; simpl; [tauto|].
  destruct (N.eqb_spec c x); simpl.
  - split; [discriminate|]. intros Hn. destruct Hn. auto.
  - rewrite IH. split; [intros Hn [?|?]; auto; congruence | tauto].
Qed.

Lemma lstrip_all_space s :
  Forall (fun c => isspace c = true) s -> lstrip s = [].
Proof. induction 1 as [|c s Hc _ IH]; simpl; trivial. now rewrite Hc. Qed.

Lemma lstrip_In c s : In c s -> isspace c = false -> In c (lstrip s).
Proof.
  induction s as [|x s IH]; simpl; [tauto|]. intros [-> |Hin] Hc.
  - rewrite Hc. now left.
  - destruct (isspace x); [auto|now right].
Qed.

Lemma str_strip_In c s : In c s -> isspace c = false -> In c (str_strip s).
Proof.
  intros Hin Hc. unfold str_strip. apply -> in_rev.
  apply lstrip_In; trivial. apply -> in_rev. now apply lstrip_In.
Qed.

(** What [Dec.digits] reads is a run of decimal digits. *)
Lemma digits_inv s : forall acc k v k' rest,
  Dec.digits s acc k = (v, k', rest) ->
  exists pre, s = pre ++ rest /\ Forall (fun c => isdecimal c = true) pre.
Proof.
  induction s as [|c s IH]; simpl; intros acc k v k' rest E.
  - inversion E; subst. exists []. auto.
  - destruct (decimal c) as [d|] eqn:Ed.
    + destruct (IH _ _ _ _ _ E) as (pre & -> & Hpre).
      exists (c :: pre). split; trivial. constructor; trivial.
      unfold isdecimal. now rewrite Ed.
    + inversion E; subst. exists []. auto.
Qed.

(** A string that [Decimal] accepts is, white space around it apart, made
    of decimal digits and periods; the value has no sign and its exponent
    is not positive. *)
Lemma of_str_Return s d :
  Dec.of_str s = Return d ->
  Forall (fun c => isdecimal c = true \/ c = 46%N) (str_strip s) /\
  sign d = false /\ exponent d <= 0.
Proof.
  unfold Dec.of_str.
  destruct (Dec.digits (str_strip s) 0 0) as [[i ni] rest] eqn:E1.
  destruct (digits_inv _ _ _ E1) as (pre & Hs & Hpre).
  assert (Hpre' : Forall (fun c => isdecimal c = true \/ c = 46%N) pre)
    by (eapply Forall_impl; [|exact Hpre]; simpl; tauto).
  destruct rest as [|c rest'].
  - destruct ni; [discriminate|]. intros E; inversion E; subst; simpl.
    rewrite Hs, app_nil_r. repeat split; trivial. lia.
  - destruct (N.eqb_spec c 46); [|discriminate]. subst c.
    destruct (Dec.digits rest' i ni) as [[v k] rest''] eqn:E2.
    destruct (digits_inv _ _ _ E2) as (pre2 & Hs2 & Hpre2).
    destruct rest''; [|discriminate]. destruct k; [discriminate|].
    intros E; inversion E; subst; simpl. rewrite Hs.
    repeat split; try lia.
    apply Forall_app. split; trivial. constructor; [now right|].
    rewrite app_nil_r. eapply Forall_impl; [|exact Hpre2]. simpl; tauto.
Qed.

(** White space stays white space when the blanks are taken out, and has
    no comma. *)
Lemma white_space_without_blanks m :
  Forall (fun c => isspace c = true) m ->
  Forall (fun c => isspace c = true)
    (str_replace 32%N [] (str_replace 8239%N [] m)) /\
  str_count 44%N (str_replace 32%N [] (str_replace 8239%N [] m)) = O.
Proof.
  intros Hm.
  assert (Hs : Forall (fun c => isspace c = true)
                 (str_replace 32%N [] (str_replace 8239%N [] m))).
  { apply Forall_forall. intros x Hx.
    apply In_str_remove in Hx. destruct Hx as [Hx _].
    apply In_str_remove in Hx. destruct Hx as [Hx _].
    revert x Hx. now apply Forall_forall. }
  split; trivial.
  apply str_count_0. intros Hin.
  rewrite Forall_forall in Hs. apply Hs in Hin. discriminate.
Qed.

Lemma of_str_white_space s :
  Forall (fun c => isspace c = true) s -> Dec.of_str s = Raise InvalidOperation.
Proof.
  intros Hs. unfold Dec.of_str, str_strip.
  rewrite (lstrip_all_space Hs). reflexivity.
Qed.

(** With a comma and a period in it the string goes to [Decimal] with its
    commas, which [Decimal] does not read. *)
Lemma comma_and_period txt :
  decimal 44%N = None -> In 44%N txt -> In 46%N txt ->
  _norm_amount txt = Raise InvalidOperation.
Proof.
  intros Hlaw Hc Hp. unfold _norm_amount.
  change (chr " ") with 32%N. change (chr ",") with 44%N.
  change (chr ".") with 46%N.
  set (s := str_replace 32%N [] (str_replace 8239%N [] txt)).
  assert (Hin : forall x, x <> 32%N -> x <> 8239%N -> In x txt -> In x s).
  { intros x H1 H2 Hx. subst s. apply In_str_remove. split; trivial.
    apply In_str_remove. auto. }
  assert (Hcs : In 44%N s) by (apply Hin; trivial; discriminate).
  assert (Hps : In 46%N s) by (apply Hin; trivial; discriminate).
  assert (Hn : Nat.eqb (str_count 46%N s) 0 = false).
  { apply Nat.eqb_neq. rewrite str_count_0. tauto. }
  rewrite Hn, andb_false_r. cbv zeta. rewrite Hn, andb_false_r.
  destruct (Dec.of_str s) as [d|e] eqn:E;
    [|now rewrite (of_str_raises _ E)].
  apply of_str_Return in E. destruct E as (Hchars & _).
  rewrite Forall_forall in Hchars.
  assert (Hstrip : In 44%N (str_strip s)) by now apply str_strip_In.
  destruct (Hchars _ Hstrip) as [Hd|Hd].
  - unfold isdecimal in Hd. rewrite Hlaw in Hd. discriminate.
  - discriminate.
Qed.

End NormAmountFacts.

(** X1. White space alone is never an amount: on a string that holds only
    white-space characters, the empty string among them, [_norm_amount]
    raises [InvalidOperation]. *)
Theorem norm_amount_white_space_raises `{Unicode} m :
  Forall (fun c => isspace c = true) m ->
  _norm_amount m = Raise InvalidOperation.
Proof.
  intros Hm. unfold _norm_amount.
  change (chr " ") with 32%N. change (chr ",") with 44%N.
  destruct (white_space_without_blanks Hm) as [Hs Hc].
  rewrite Hc. simpl. rewrite Hc. simpl.
  now apply of_str_white_space.
Qed.

Lemma norm_amount_white_space_raises_witness :
  _norm_amount (lit " ") = Raise InvalidOperation.
Proof.
  apply (@norm_amount_white_space_raises basic_latin (lit " ")).
  repeat constructor.
Defined.

(** X2. A string with a comma and a period is never an amount: provided
    the comma is not a decimal digit of the Unicode tables, [_norm_amount]
    raises [InvalidOperation] on every string that holds both, whatever
    else it holds. *)
Theorem norm_amount_comma_and_period_raises `{Unicode} txt :
  decimal (chr ",") = None ->
  In (chr ",") txt -> In (chr ".") txt ->
  _norm_amount txt = Raise InvalidOperation.
Proof. exact (comma_and_period txt). Qed.

Lemma norm_amount_comma_and_period_raises_witness :
  _norm_amount (lit "$1,234.56") = Raise InvalidOperation.
Proof.
  apply (@norm_amount_comma_and_period_raises basic_latin (lit "$1,234.56")).
  - reflexivity.
  - vm_compute. tauto.
  - vm_compute. tauto.
Defined.

(** X3. Blanks do not count: a space (U+0020) or a narrow no-break space
    (U+202F) anywhere in the string leaves the result of [_norm_amount] as
    it is without it. *)
Theorem norm_amount_ignores_blanks `{Unicode} a b :
  _norm_amount (a ++ [chr " "] ++ b) = _norm_amount (a ++ b) /\
  _norm_amount (a ++ [8239%N] ++ b) = _norm_amount (a ++ b).
Proof.
  unfold _norm_amount. rewrite !str_replace_app. simpl. split; reflexivity.
Qed.

(** ** The greatest amount of a message *)

Section DecimalOrder.

Lemma scaled_shift d e m :
  m <= e -> e <= exponent d ->
  Dec.scaled d m = Dec.scaled d e * 10 ^ (e - m).
Proof.
  intros H1 H2. unfold Dec.scaled.
  replace (exponent d - m) with ((exponent d - e) + (e - m)) by lia.
  rewrite Z.pow_add_r by lia. ring.
Qed.

(** Two decimals compare as their values in any unit small enough for
    both. *)
Lemma compare_at a b m :
  m <= exponent a -> m <= exponent b ->
  Dec.compare a b = Z.compare (Dec.scaled a m) (Dec.scaled b m).
Proof.
  intros Ha Hb. unfold Dec.compare.
  set (e := Z.min (exponent a) (exponent b)).
  rewrite (@scaled_shift a e m), (@scaled_shift b e m) by (subst e; lia).
  apply Zmult_compare_compat_r. apply Z.lt_gt.
  apply Z.pow_pos_nonneg; subst e; lia.
Qed.

Lemma gtb_false_at a b m :
  m <= exponent a -> m <= exponent b ->
  (Dec.gtb a b = false <-> Dec.scaled a m <= Dec.scaled b m).
Proof.
  intros Ha Hb. unfold Dec.gtb. rewrite (compare_at a b Ha Hb).
  destruct (Z.compare_spec (Dec.scaled a m) (Dec.scaled b m));
    split; intros; try lia; try reflexivity; discriminate.
Qed.

Lemma gtb_trans a b c :
  Dec.gtb a b = false -> Dec.gtb b c = false -> Dec.gtb a c = false.
Proof.
  set (m := Z.min (exponent a) (Z.min (exponent b) (exponent c))).
  rewrite (@gtb_false_at a b m), (@gtb_false_at b c m), (@gtb_false_at a c m)
    by (subst m; lia).
  lia.
Qed.

Lemma gtb_asym a b : Dec.gtb a b = true -> Dec.gtb b a = false.
Proof.
  set (m := Z.min (exponent a) (exponent b)).
  intros Hab. rewrite (@gtb_false_at b a m) by (subst m; lia).
  destruct (Dec.gtb a b) eqn:E; [|discriminate].
  destruct (Z.le_gt_cases (Dec.scaled b m) (Dec.scaled a m)) as [Hle|Hgt]; trivial.
  assert (Hf : Dec.gtb a b = false)
    by (apply (@gtb_false_at a b m); subst m; lia).
  congruence.
Qed.

Lemma gtb_refl a : Dec.gtb a a = false.
Proof. apply (@gtb_false_at a a (exponent a)); lia. Qed.

(** [Dec.max_from] returns its first argument or an element of the list,
    and nothing in sight is greater. *)
Lemma max_from_spec l : forall best,
  (Dec.max_from best l = best \/ In (Dec.max_from best l) l) /\
  Dec.gtb best (Dec.max_from best l) = false /\
  (forall x, In x l -> Dec.gtb x (Dec.max_from best l) = false).
Proof.
  induction l as [|x l IH]; simpl; intros best.
  - repeat split; auto using gtb_refl. tauto.
  - destruct (IH (if Dec.gtb x best then x else best)) as (Hin & Hbest & Hall).
    destruct (Dec.gtb x best) eqn:E.
    + repeat split.
      * destruct Hin as [-> |Hin]; auto.
      * eapply gtb_trans; [|exact Hbest]. now apply gtb_asym.
      * intros y [<-|Hy]; auto.
    + repeat split.
      * destruct Hin as [-> |Hin]; auto.
      * exact Hbest.
      * intros y [<-|Hy]; auto. eapply gtb_trans; [exact E|exact Hbest].
Qed.

Lemma max_spec l default :
  match l with
  | [] => Dec.max l default = default
  | _ :: _ =>
      In (Dec.max l default) l /\
      forall x, In x l -> Dec.gtb x (Dec.max l default) = false
  end.
Proof.
  destruct l as [|x l]; simpl; trivial.
  destruct (max_from_spec l x) as (Hin & Hbest & Hall). split.
  - destruct Hin as [-> |Hin]; auto.
  - intros y [<-|Hy]; auto.
Qed.

(** A decimal without sign is at most zero only when it is zero. *)
Lemma leb_zero d :
  sign d = false -> exponent d <= 0 ->
  (Dec.leb d Dec.zero = true <-> coefficient d = 0%N).
Proof.
  intros Hs He. unfold Dec.leb. rewrite negb_true_iff.
  rewrite (@gtb_false_at d Dec.zero (exponent d)) by (simpl; lia).
  unfold Dec.scaled. rewrite Hs, Z.sub_diag.
  change (sign Dec.zero) with false. change (coefficient Dec.zero) with 0%N.
  rewrite Z.pow_0_r, !Z.mul_1_l, Z.mul_1_r. simpl Z.of_N at 2.
  rewrite Z.mul_0_l. lia.
Qed.

End DecimalOrder.

Section MaxAmountFacts.
Context `{Unicode}.

Lemma for_each_Return {A B} (f : A -> result B) l : forall bs,
  for_each f l = Return bs -> Forall2 (fun a b => f a = Return b) l bs.
Proof.
  induction l as [|a l IH]; simpl; intros bs E.
  - inversion E. constructor.
  - destruct (f a) as [b|] eqn:Ea; simpl in E; [|discriminate].
    destruct (for_each f l) as [bs'|] eqn:El; simpl in E; [|discriminate].
    inversion E; subst. constructor; auto.
Qed.

Lemma Forall2_In_l {A B} (R : A -> B -> Prop) l l' a :
  Forall2 R l l' -> In a l -> exists b, In b l' /\ R a b.
Proof.
  induction 1 as [|x y l l' Hxy _ IH]; simpl; [tauto|].
  intros [<-|Hin]; [eauto|]. destruct (IH Hin) as (b & Hb & Hr). eauto.
Qed.

Lemma Forall2_In_r {A B} (R : A -> B -> Prop) l l' b :
  Forall2 R l l' -> In b l' -> exists a, In a l /\ R a b.
Proof.
  induction 1 as [|x y l l' Hxy _ IH]; simpl; [tauto|].
  intros [<-|Hin]; [eauto|]. destruct (IH Hin) as (a & Ha & Hr). eauto.
Qed.

Lemma norm_amount_Return m d :
  _norm_amount m = Return d -> sign d = false /\ exponent d <= 0.
Proof. unfold _norm_amount. intros E. apply of_str_Return in E. tauto. Qed.

End MaxAmountFacts.



(** X5. No amount is negative, and a message is dropped for its amount
    only when all its numbers are zero: if [ingest] ends at the test
    [amount <= 0], every match of AMOUNT_RE in the text reads as a decimal
    with coefficient zero. *)
Theorem ingest_non_positive_means_zero `{Unicode} src update now db :
  fst (ingest src update now db) = FilteredNonPositive ->
  forall m,
    In m (findall AMOUNT_RE (message_text (Tg.effective_message update))) ->
    exists d, _norm_amount m = Return d /\ sign d = false /\
              coefficient d = 0%N.
Proof.
  unfold ingest, ingest_tests.
  destruct (negb _); [discriminate|].
  destruct (message_text _) as [|c0 text0] eqn:Et; [discriminate|].
  destruct (extract_cluster _) as [[|]|]; try discriminate.
  destruct (findall AMOUNT_RE (c0 :: text0)) as [|m0 ms] eqn:Ef; [discriminate|].
  destruct (max_amount (m0 :: ms)) as [amt|] eqn:Em; [|discriminate].
  destruct (Dec.leb amt Dec.zero) eqn:El; [|discriminate].
  intros _ m Hm.
  assert (Hms : m0 :: ms <> []) by discriminate.
  revert Em. unfold max_amount.
  destruct (for_each _norm_amount (m0 :: ms)) as [ds|] eqn:E; simpl; [|discriminate].
  intros Ea. inversion Ea as [Hamt]. clear Ea.
  apply for_each_Return in E.
  destruct (@Forall2_In_l _ _ _ _ _ _ E Hm) as (d & Hd & Hread).
  destruct (norm_amount_Return _ Hread) as [Hsd Hed].
  exists d. repeat split; trivial.
  assert (Hmax := max_spec ds Dec.zero).
  destruct ds as [|d0 ds']; [destruct Hd|]. destruct Hmax as [Hin Hall].
  rewrite Hamt in Hin, Hall.
  destruct (@Forall2_In_r _ _ _ _ _ _ E Hin) as (ma & _ & Hra).
  destruct (norm_amount_Return _ Hra) as [Hsa Hea].
  apply (@leb_zero d Hsd Hed). unfold Dec.leb. rewrite negb_true_iff.
  eapply gtb_trans; [apply Hall, Hd|].
  unfold Dec.leb in El. now rewrite negb_true_iff in El.
Qed.

Lemma ingest_non_positive_means_zero_witness :
  let u := text_update 7 1 (lit "ALX 0.00") (at_time 2024 3 7 9 30) in
  fst (ingest 7 u (at_time 2024 3 7 9 31) []) = FilteredNonPositive /\
  exists d, _norm_amount (lit " 0.00") = Return d /\ sign d = false /\
            coefficient d = 0%N.
Proof.
  intros u. split; [reflexivity|].
  apply (@ingest_non_positive_means_zero basic_latin 7 u
           (at_time 2024 3 7 9 31) []).
  - vm_compute. reflexivity.
  - vm_compute. left. reflexivity.
Defined.

(** ** [extract_cluster] *)

Section ClusterFacts.
Context `{Unicode}.

Lemma startswith_app p s : startswith p (p ++ s) = true.
Proof. induction p as [|c p IH]; simpl; trivial. now rewrite N.eqb_refl. Qed.

Lemma str_in_startswith p s : startswith p s = true -> str_in p s = true.
Proof. intros E. destruct s; simpl; now rewrite E. Qed.

Lemma str_in_app sub a b : str_in sub (a ++ sub ++ b) = true.
Proof.
  induction a as [|c a IH]; simpl.
  - apply str_in_startswith, startswith_app.
  - rewrite IH. apply orb_true_r.
Qed.

Lemma str_upper_app a b : str_upper (a ++ b) = str_upper a ++ str_upper b.
Proof. unfold str_upper. apply flat_map_app. Qed.

Lemma extract_cluster_None text :
  extract_cluster text = None <->
  forall c, In c CLUSTERS -> mentions text c = false.
Proof.
  unfold extract_cluster, mentions. split.
  - intros E c Hc. exact (find_none _ _ E c Hc).
  - intros Hall. destruct (find _ CLUSTERS) as [c|] eqn:E; trivial.
    apply find_some in E. destruct E as [Hc Hm].
    rewrite (Hall c Hc) in Hm. discriminate.
Qed.

End ClusterFacts.



(** X7. A message of the source chat is dropped for its cluster exactly
    when its text is not empty and none of the three labels occurs in the
    upper-cased text. *)
Theorem ingest_no_cluster_iff `{Unicode} src update now db :
  fst (ingest src update now db) = FilteredNoCluster <->
  Tg.id (Tg.effective_chat update) = src /\
  message_text (Tg.effective_message update) <> [] /\
  forall c, In c CLUSTERS ->
    mentions (message_text (Tg.effective_message update)) c = false.
Proof.
  rewrite <- extract_cluster_None, ingest_outcome. unfold ingest_tests.
  destruct (Z.eqb_spec (Tg.id (Tg.effective_chat update)) src) as [Hs|Hs];
    cbn [negb].
  2: { split; [discriminate|tauto]. }
  destruct (message_text _) as [|c0 text0] eqn:Et.
  { split; [discriminate|]. intros (_ & Hne & _). congruence. }
  destruct (extract_cluster (c0 :: text0)) as [cl|] eqn:Ec.
  - assert (Hcl : In cl CLUSTERS) by (eapply extract_cluster_In; eauto).
    destruct cl as [|x cl].
    { unfold CLUSTERS in Hcl. simpl in Hcl.
      destruct Hcl as [Hcl|[Hcl|[Hcl|[]]]]; discriminate. }
    split; [|intros (_ & _ & Hn); discriminate].
    destruct (findall _ _); [discriminate|].
    destruct (max_amount _); [|discriminate].
    destruct (Dec.leb _ _); discriminate.
  - split; [|reflexivity]. intros _. repeat split; trivial. discriminate.
Qed.

(** ** What AMOUNT_RE matches *)

Section MatchLanguage.
Context `{Unicode}.

(** The strings a pattern stands for. *)
Fixpoint lang (r : regex) (w : str) : Prop :=
  match r with
  | One a => exists c, w = [c] /\ atom_match a c = true
  | Cat r1 r2 => exists w1 w2, w = w1 ++ w2 /\ lang r1 w1 /\ lang r2 w2
  | Alt r1 r2 => lang r1 w \/ lang r2 w
  | Opt r1 => w = [] \/ lang r1 w
  | Star a => Forall (fun c => atom_match a c = true) w
  | Plus a => w <> [] /\ Forall (fun c => atom_match a c = true) w
  | Group r1 => lang r1 w
  end.

(** The matcher consumes a string of the pattern and goes on with the
    rest of the text. *)
Lemma run_sound r : forall s cap k res,
  run r s cap k = Some res ->
  exists w s' cap', s = w ++ s' /\ lang r w /\ k s' cap' = Some res.
Proof.
  induction r as [a|r1 IH1 r2 IH2|r1 IH1 r2 IH2|r1 IH1|a|a|r1 IH1];
    simpl; intros s cap k res E.
  - destruct s as [|c s]; [discriminate|].
    destruct (atom_match a c) eqn:Ea; [|discriminate].
    exists [c], s, cap. repeat split; trivial. eauto.
  - destruct (IH1 _ _ _ _ E) as (w1 & s1 & cap1 & -> & Hw1 & E1).
    destruct (IH2 _ _ _ _ E1) as (w2 & s2 & cap2 & -> & Hw2 & E2).
    exists (w1 ++ w2), s2, cap2. rewrite app_assoc. repeat split; trivial.
    exists w1, w2. auto.
  - destruct (run r1 s cap k) eqn:E1.
    + rewrite <- E1 in E.
      destruct (IH1 _ _ _ _ E) as (w & s' & cap' & -> & Hw & Ek).
      exists w, s', cap'. auto.
    + destruct (IH2 _ _ _ _ E) as (w & s' & cap' & -> & Hw & Ek).
      exists w, s', cap'. auto.
  - destruct (run r1 s cap k) eqn:E1.
    + rewrite <- E1 in E.
      destruct (IH1 _ _ _ _ E) as (w & s' & cap' & -> & Hw & Ek).
      exists w, s', cap'. auto.
    + exists [], s, cap. auto.
  - destruct (star_inv _ _ _ _ E) as (pre & s' & -> & Hpre & Ek).
    exists pre, s', cap. auto.
  - destruct s as [|c s]; [discriminate|].
    destruct (atom_match a c) eqn:Ea; [|discriminate].
    destruct (star_inv _ _ _ _ E) as (pre & s' & -> & Hpre & Ek).
    exists (c :: pre), s', cap. repeat split; trivial; [discriminate|].
    now constructor.
  - destruct (IH1 _ _ _ _ E) as (w & s' & cap' & -> & Hw & Ek).
    exists w, s'. eauto.
Qed.

Definition amount_prefix : regex := Opt (Cat USD_or_dollar (Star (Single Space))).
Definition amount_suffix : regex := Cat (Star (Single Space)) (Opt USD_or_dollar).

(** The parts of a match of AMOUNT_RE: what stands before group 1, group
    1, what stands after it, and the text that is left. *)
Lemma match_at_AMOUNT_RE_parts s rest cap :
  match_at AMOUNT_RE s = Some (rest, cap) ->
  exists p g q,
    s = p ++ g ++ q ++ rest /\ cap = Some g /\
    lang amount_prefix p /\
    g <> [] /\ Forall (fun c => atom_match amount_chars c = true) g /\
    lang amount_suffix q.
Proof.
  unfold match_at, AMOUNT_RE. intros E.
  change (run (Cat ?p ?q) s None ?k)
    with (run p s None (fun s' cap' => run q s' cap' k)) in E.
  apply run_sound in E. destruct E as (p & s1 & cap1 & -> & Hp & E).
  change (run (Cat (Group (Plus amount_chars)) ?q) s1 cap1 ?k)
    with (run (Plus amount_chars) s1 cap1
            (fun s' _ => run q s'
               (Some (firstn (List.length s1 - List.length s') s1)) k)) in E.
  cbn [run] in E.
  destruct s1 as [|c s1]; [discriminate|].
  destruct (atom_match amount_chars c) eqn:Ec; [|discriminate].
  apply star_inv in E. destruct E as (pre & s' & -> & Hpre & E).
  change (c :: pre ++ s') with ((c :: pre) ++ s') in E.
  rewrite firstn_app_minus in E.
  assert (E' := E).
  apply (run_group_free (Cat (Star (Single Space)) (Opt USD_or_dollar))) in E';
    [|reflexivity].
  destruct E' as (s3 & E'). inversion E'; subst.
  apply (run_sound amount_suffix) in E.
  destruct E as (q & s'' & cap'' & -> & Hq & E). inversion E; subst.
  exists p, (c :: pre), q. repeat split; trivial; [discriminate|].
  now constructor.
Qed.

Lemma findall_from_In_suffix r s : forall skip m,
  In m (findall_from r skip s) ->
  exists x s0 rest cap,
    s = x ++ s0 /\ match_at r s0 = Some (rest, cap) /\ m = group1 cap.
Proof.
  induction s as [|c s IH]; simpl; intros skip m Hin.
  - destruct skip; [|destruct Hin].
    destruct (match_at r []) as [[rest cap]|] eqn:E; [|destruct Hin].
    destruct Hin as [<-|[]]. exists [], [], rest, cap. auto.
  - assert (Hrec : forall k, In m (findall_from r k s) ->
              exists x s0 rest cap,
                c :: s = x ++ s0 /\ match_at r s0 = Some (rest, cap) /\
                m = group1 cap).
    { intros k Hk. destruct (IH _ _ Hk) as (x & s0 & rest & cap & -> & E & ->).
      exists (c :: x), s0, rest, cap. auto. }
    destruct skip; [|eauto].
    destruct (match_at r (c :: s)) as [[rest cap]|] eqn:E; [|eauto].
    destruct Hin as [<-|Hin]; [|eauto].
    exists [], (c :: s), rest, cap. auto.
Qed.

(** Repetition cannot fail when what follows cannot. *)
Lemma star_total a s cap k :
  (forall s' cap', k s' cap' <> None) -> star a s cap k <> None.
Proof.
  intros Hk. induction s as [|c s IH]; simpl; [apply Hk|].
  destruct (atom_match a c); [|apply Hk].
  destruct (star a s cap k); [discriminate|apply Hk].
Qed.

(** At an amount character there is always a match. *)
Lemma match_at_AMOUNT_RE_head c s :
  atom_match amount_chars c = true -> match_at AMOUNT_RE (c :: s) <> None.
Proof.
  intros Hc. unfold match_at, AMOUNT_RE.
  change (run (Cat ?p ?q) (c :: s) None ?k)
    with (run p (c :: s) None (fun s' cap' => run q s' cap' k)).
  cbn [run].
  match goal with |- match ?x with _ => _ end <> None => destruct x end;
    [discriminate|].
  rewrite Hc. apply star_total. intros s' cap'.
  apply star_total. intros s'' cap''.
  match goal with |- match ?x with _ => _ end <> None => destruct x end;
    discriminate.
Qed.

End MatchLanguage.

(** X8. What [findall] returns for AMOUNT_RE: every element is a non-empty
    piece of the text, made only of digits, white space, periods and
    commas. *)
Theorem findall_AMOUNT_RE_pieces `{Unicode} s m :
  In m (findall AMOUNT_RE s) ->
  m <> [] /\
  Forall (fun c => atom_match amount_chars c = true) m /\
  exists x y, s = x ++ m ++ y.
Proof.
  intros Hin. apply findall_from_In_suffix in Hin.
  destruct Hin as (x & s0 & rest & cap & -> & E & ->).
  apply match_at_AMOUNT_RE_parts in E.
  destruct E as (p & g & q & -> & -> & _ & Hne & Hg & _). simpl.
  repeat split; trivial.
  exists (x ++ p), (q ++ rest). now rewrite <- !app_assoc.
Qed.

Lemma findall_AMOUNT_RE_pieces_witness :
  let s := lit "SKY $1 200,5 usd" in
  let m := lit "1 200,5 " in
  m <> [] /\
  Forall (fun c => atom_match amount_chars c = true) m /\
  exists x y, s = x ++ m ++ y.
Proof.
  intros s m. apply (@findall_AMOUNT_RE_pieces basic_latin s m).
  vm_compute. right. left. reflexivity.
Defined.

(** X9. AMOUNT_RE finds nothing exactly in the texts that have no digit,
    no white space, no period and no comma; one such character is enough
    for a match. *)
Theorem findall_AMOUNT_RE_nil_iff `{Unicode} s :
  findall AMOUNT_RE s = [] <->
  Forall (fun c => atom_match amount_chars c = false) s.
Proof.
  split.
  - unfold findall. induction s as [|c s IH]; [constructor|].
    simpl. destruct (match_at AMOUNT_RE (c :: s)) as [[rest cap]|] eqn:E;
      [discriminate|].
    intros Hnil. constructor; [|auto].
    destruct (atom_match amount_chars c) eqn:Ec; trivial.
    now destruct (match_at_AMOUNT_RE_head c s Ec).
  - intros Hs. destruct (findall AMOUNT_RE s) as [|m ms] eqn:E; trivial.
    assert (Hin : In m (findall AMOUNT_RE s)) by (rewrite E; now left).
    apply findall_from_In_suffix in Hin.
    destruct Hin as (x & s0 & rest & cap & -> & Em & _).
    apply match_at_AMOUNT_RE_parts in Em.
    destruct Em as (p & g & q & -> & _ & _ & Hne & Hg & _).
    destruct g as [|c g]; [congruence|].
    inversion Hg as [|? ? Hc _]; subst.
    rewrite Forall_forall in Hs. rewrite Hs in Hc; [discriminate|].
    apply in_or_app. right. apply in_or_app. right. now left.
Qed.

(** ** White space between two words *)

Section Gap.
Context `{Unicode}.

(** White space matches none of the letters of the pattern, as in every
    Unicode version. *)
Definition space_is_no_letter : Prop :=
  forall c, isspace c = true ->
    ignorecase_eq c (chr "U") = false /\
    ignorecase_eq c (chr "S") = false /\
    ignorecase_eq c (chr "D") = false.

Lemma space_is_amount c : isspace c = true -> atom_match amount_chars c = true.
Proof. intros Hc. simpl. rewrite Hc. apply orb_true_r. Qed.

(** Where an element of [u ++ x :: v] falls when the list is cut in two. *)
Lemma split_at (w t u : str) x v :
  w ++ t = u ++ x :: v ->
  (exists u2, u = w ++ u2 /\ t = u2 ++ x :: v) \/
  (exists w2, w = u ++ x :: w2 /\ v = w2 ++ t).
Proof.
  revert u. induction w as [|c w IH]; simpl; intros u E.
  - left. exists u. auto.
  - destruct u as [|c' u]; simpl in E; inversion E; subst.
    + right. exists w. auto.
    + destruct (IH _ H2) as [(u2 & -> & ->)|(w2 & -> & ->)].
      * left. exists u2. auto.
      * right. exists w2. auto.
Qed.

(** A run of characters with a property, at the start of a list whose
    first character without the property is [y], ends before [y]. *)
Lemma prefix_within (P : codepoint -> bool) w t ws y b :
  w ++ t = ws ++ y :: b ->
  Forall (fun c => P c = true) w -> P y = false ->
  exists ws2, ws = w ++ ws2 /\ t = ws2 ++ y :: b.
Proof.
  intros E Hw Hy. destruct (split_at _ _ _ _ _ E) as [(u2 & -> & ->)|(w2 & -> & _)].
  - exists u2. auto.
  - apply Forall_app in Hw. destruct Hw as [_ Hw].
    inversion Hw; subst. congruence.
Qed.

(** In USD or $ a character that is not the last is followed by one that
    matches S or D. *)
Lemma literal_next l l1 x c l2 :
  lang USD_or_dollar l -> l = l1 ++ x :: c :: l2 ->
  ignorecase_eq c (chr "S") = true \/ ignorecase_eq c (chr "D") = true.
Proof.
  simpl. intros [(w1 & w2 & -> & (c1 & -> & H1) & w3 & w4 & -> &
                  (c2 & -> & H2) & (c3 & -> & H3))|(c0 & -> & _)] E.
  - destruct l1 as [|a [|a' [|a'' l1]]]; simpl in E; inversion E; subst; auto.
    destruct l1; discriminate.
  - destruct l1 as [|a [|a' l1]]; simpl in E; inversion E.
Qed.

Lemma literal_head l :
  lang USD_or_dollar l ->
  exists c l', l = c :: l' /\
    (ignorecase_eq c (chr "U") = true \/ c = chr "$").
Proof.
  simpl. intros [(w1 & w2 & -> & (c1 & -> & H1) & _)|(c0 & -> & H0)].
  - exists c1, w2. auto.
  - exists c0, []. split; trivial. right.
    rewrite orb_false_r in H0 || idtac. simpl in H0. now apply N.eqb_eq.
Qed.

Section WithGap.
Variables (x y : codepoint) (ws b : str).
Hypothesis Hlaw : space_is_no_letter.
Hypothesis Hx : atom_match amount_chars x = false.
Hypothesis Hy : atom_match amount_chars y = false.
Hypothesis Hws : Forall (fun c => isspace c = true) ws.
Hypothesis Hne : ws <> [].

Let T := ws ++ y :: b.

Lemma gap_head : exists w0 ws', ws = w0 :: ws' /\ isspace w0 = true.
Proof.
  destruct ws as [|w0 ws'] eqn:E; [congruence|].
  exists w0, ws'. split; trivial. now inversion Hws.
Qed.

Lemma x_no_space : isspace x = false.
Proof.
  destruct (isspace x) eqn:E; trivial.
  rewrite (space_is_amount _ E) in Hx. discriminate.
Qed.

Lemma y_no_space : isspace y = false.
Proof.
  destruct (isspace y) eqn:E; trivial.
  rewrite (space_is_amount _ E) in Hy. discriminate.
Qed.

(** A literal that holds [x] and is followed by the gap ends with [x]. *)
Lemma literal_ends_at_x l t u :
  lang USD_or_dollar l -> l ++ t = u ++ x :: T ->
  (exists u2, u = l ++ u2 /\ t = u2 ++ x :: T) \/
  (exists l1, l = l1 ++ [x] /\ u = l1 /\ t = T).
Proof.
  intros Hl E. destruct (split_at _ _ _ _ _ E) as [?|(w2 & -> & Et)]; [now left|].
  right. destruct w2 as [|c w2].
  - exists u. simpl in Et. auto.
  - exfalso. destruct gap_head as (w0 & ws' & Ews & Hw0).
    unfold T in Et. rewrite Ews in Et. simpl in Et. inversion Et; subst c.
    destruct (Hlaw _ Hw0) as (_ & HS & HD).
    destruct (@literal_next _ _ _ _ _ Hl eq_refl) as [Hc|Hc]; congruence.
Qed.

(** A match that begins in [u ++ x :: ...] ends at [x] or before it, or
    its group 1 is a piece of the gap. *)
Lemma match_over_gap u rest cap :
  match_at AMOUNT_RE (u ++ x :: T) = Some (rest, cap) ->
  (exists u2, rest = u2 ++ x :: T /\ (List.length u2 < List.length u)%nat) \/
  rest = T \/
  Forall (fun c => isspace c = true) (group1 cap).
Proof.
  intros E. apply match_at_AMOUNT_RE_parts in E.
  destruct E as (p & g & q & E & -> & Hp & Hg0 & Hg & Hq). simpl group1.
  assert (Hgx : forall g1 g2, g = g1 ++ x :: g2 -> False).
  { intros g1 g2 ->. apply Forall_app in Hg. destruct Hg as [_ Hg].
    inversion Hg; subst. congruence. }
  (* the part after group 1 *)
  assert (Hafter : forall u3, q ++ rest = u3 ++ x :: T ->
            (exists u4, rest = u4 ++ x :: T /\
                        (List.length u4 <= List.length u3)%nat) \/ rest = T).
  { intros u3 E3. destruct Hq as (sp & l & -> & Hsp & Hl).
    rewrite <- app_assoc in E3.
    destruct (split_at _ _ _ _ _ E3) as [(u4 & -> & E4)|(w2 & -> & _)].
    2: { apply Forall_app in Hsp. destruct Hsp as [_ Hsp].
         inversion Hsp as [|? ? Hsx _]; subst. simpl in Hsx.
         rewrite x_no_space in Hsx. discriminate. }
    destruct Hl as [-> |Hl].
    - left. exists u4. split; trivial. rewrite length_app. lia.
    - destruct (@literal_ends_at_x _ _ _ Hl E4) as [(u5 & -> & ->)|(l1 & -> & -> & ->)].
      + left. exists u5. split; trivial. rewrite !length_app. lia.
      + now right. }
  (* the part before group 1 *)
  destruct Hp as [-> |(l & sp & -> & Hl & Hsp)].
  - simpl in E. symmetry in E.
    destruct (split_at _ _ _ _ _ E) as [(u2 & -> & E2)|(w2 & -> & _)];
      [|now destruct (Hgx _ _ eq_refl)].
    destruct (Hafter _ E2) as [(u4 & -> & Hlen)| ->]; [left|now right; left].
    exists u4. split; trivial. rewrite length_app.
    destruct g; [congruence|simpl; lia].
  - rewrite <- app_assoc in E. symmetry in E.
    destruct (@literal_ends_at_x _ _ _ Hl E) as [(u2 & -> & E2)|(l1 & -> & -> & E2)].
    + destruct (split_at _ _ _ _ _ E2) as [(u3 & -> & E3)|(w2 & -> & _)].
      2: { apply Forall_app in Hsp. destruct Hsp as [_ Hsp].
           inversion Hsp as [|? ? Hsx _]; subst. simpl in Hsx.
           rewrite x_no_space in Hsx. discriminate. }
      destruct (split_at _ _ _ _ _ E3) as [(u4 & -> & E4)|(w2 & -> & _)];
        [|now destruct (Hgx _ _ eq_refl)].
      destruct (Hafter _ E4) as [(u5 & -> & Hlen)| ->]; [left|now right; left].
      exists u5. split; trivial. rewrite !length_app.
      destruct g; [congruence|simpl; lia].
    + right. right. unfold T in E2.
      destruct (@prefix_within isspace _ _ _ _ _ E2) as (ws2 & Ews & E3).
      { eapply Forall_impl; [|exact Hsp]. simpl. intros c Hc. exact Hc. }
      { apply y_no_space. }
      destruct (@prefix_within (fun c => atom_match amount_chars c) _ _ _ _ _ E3 Hg Hy)
        as (ws3 & Ews2 & _).
      rewrite Ews, Ews2 in Hws.
      apply Forall_app in Hws. destruct Hws as [_ Hws'].
      apply Forall_app in Hws'. tauto.
Qed.

(** At the gap itself, group 1 of the match is a piece of the gap. *)
Lemma match_at_gap :
  exists rest g,
    match_at AMOUNT_RE T = Some (rest, Some g) /\
    Forall (fun c => isspace c = true) g.
Proof.
  destruct gap_head as (w0 & ws' & Ews & Hw0).
  destruct (match_at AMOUNT_RE T) as [[rest cap]|] eqn:E.
  2: { unfold T in E. rewrite Ews in E. simpl in E.
       now destruct (match_at_AMOUNT_RE_head w0 (ws' ++ y :: b)
                       (space_is_amount _ Hw0)). }
  destruct (@match_at_AMOUNT_RE_parts _ _ _ _ E)
    as (p & g & q & E' & -> & Hp & Hg0 & Hg & Hq).
  exists rest, g. split; trivial.
  assert (Hp' : p = []).
  { destruct Hp as [-> |(l & sp & -> & Hl & _)]; trivial. exfalso.
    destruct (@literal_head _ Hl) as (c & l' & -> & Hc).
    unfold T in E'. rewrite Ews in E'. simpl in E'. inversion E'; subst c.
    destruct (Hlaw _ Hw0) as (HU & _).
    destruct Hc as [Hc|Hc]; [congruence|]. subst w0. discriminate. }
  subst p. simpl in E'. unfold T in E'. symmetry in E'.
  destruct (@prefix_within (fun c => atom_match amount_chars c) _ _ _ _ _ E' Hg Hy)
    as (ws3 & Ews3 & _).
  rewrite Ews3 in Hws. apply Forall_app in Hws. tauto.
Qed.

Lemma findall_from_cons r c s :
  findall_from r O (c :: s) =
  match match_at r (c :: s) with
  | Some (rest, cap) =>
      group1 cap ::
      findall_from r (List.length (c :: s) - List.length rest - 1) s
  | None => findall_from r O s
  end.
Proof. reflexivity. Qed.

Lemma findall_from_consumed r w : forall rest,
  findall_from r (List.length w) (w ++ rest) = findall_from r O rest.
Proof.
  induction w as [|c w IH]; simpl; intros rest; [reflexivity|apply IH].
Qed.

(** Scanning a text with such a gap meets a match whose group 1 is white
    space only. *)
Lemma findall_gap n : forall u, (List.length u < n)%nat ->
  exists m, In m (findall AMOUNT_RE (u ++ x :: T)) /\
            Forall (fun c => isspace c = true) m.
Proof.
  assert (Hbase : exists m, In m (findall AMOUNT_RE T) /\
                            Forall (fun c => isspace c = true) m).
  { destruct match_at_gap as (rest & g & E & Hg). exists g. split; trivial.
    unfold findall. destruct gap_head as (w0 & ws' & Ews & _).
    unfold T in *. rewrite Ews in *. simpl app in *. rewrite findall_from_cons.
    rewrite E. now left. }
  induction n as [|n IH]; intros u Hlen; [lia|].
  unfold findall.
  destruct (u ++ x :: T) as [|c0 s'] eqn:Es; [now destruct u|].
  rewrite findall_from_cons.
  destruct (match_at AMOUNT_RE (c0 :: s')) as [[rest cap]|] eqn:E.
  - rewrite <- Es in E.
    assert (Hparts := @match_at_AMOUNT_RE_parts _ _ _ _ E).
    destruct Hparts as (p & g & q & Esplit & _ & _ & Hg0 & _ & _).
    assert (Hcons : exists w, c0 :: s' = (c0 :: w) ++ rest).
    { assert (Ht : c0 :: s' = (p ++ g ++ q) ++ rest)
        by (rewrite <- Es, Esplit; now rewrite <- !app_assoc).
      destruct (p ++ g ++ q) as [|c1 w] eqn:Ew.
      - apply app_eq_nil in Ew. destruct Ew as [_ Ew].
        apply app_eq_nil in Ew. destruct Ew. congruence.
      - simpl in Ht. inversion Ht; subst. exists w. reflexivity. }
    destruct Hcons as (w & Ew). simpl in Ew. inversion Ew as [Es'].
    assert (Hl : (List.length (c0 :: w ++ rest) - List.length rest - 1
                  = List.length w)%nat).
    { change (List.length (c0 :: w ++ rest)) with (S (List.length (w ++ rest))).
      rewrite length_app. lia. }
    rewrite Hl, findall_from_consumed.
    destruct (@match_over_gap _ _ _ E) as [(u2 & -> & Hu2)|[-> |Hsp]].
    + destruct (IH u2) as (m & Hm & Hsp); [lia|]. exists m. split; trivial.
      now right.
    + destruct Hbase as (m & Hm & Hsp). exists m. split; trivial. now right.
    + exists (group1 cap). split; trivial. now left.
  - destruct u as [|c1 u]; simpl in Es; inversion Es; subst.
    + destruct Hbase as (m & Hm & Hsp). exists m. auto.
    + destruct (IH u) as (m & Hm & Hsp); [simpl in Hlen; lia|]. exists m. auto.
Qed.

End WithGap.
End Gap.

Section GapFacts.
Context `{Unicode}.

Lemma norm_amount_of_white_space m :
  Forall (fun c => isspace c = true) m -> _norm_amount m = Raise InvalidOperation.
Proof.
  intros Hm. unfold _norm_amount.
  change (chr " ") with 32%N. change (chr ",") with 44%N.
  destruct (white_space_without_blanks Hm) as [Hs Hc].
  rewrite Hc. simpl. rewrite Hc. simpl.
  now apply of_str_white_space.
Qed.

(** A match that cannot be read keeps the message out of the table. *)
Lemma ingest_unreadable_match src update now db m :
  In m (findall AMOUNT_RE (message_text (Tg.effective_message update))) ->
  _norm_amount m = Raise InvalidOperation ->
  snd (ingest src update now db) = db /\
  (fst (ingest src update now db) = Raised InvalidOperation \/
   fst (ingest src update now db) = FilteredOrigin \/
   fst (ingest src update now db) = FilteredNoCluster).
Proof.
  intros Hin Hm.
  assert (Hmax : max_amount
                   (findall AMOUNT_RE (message_text (Tg.effective_message update)))
                 = Raise InvalidOperation).
  { unfold max_amount.
    now rewrite (for_each_In_Raise _ _ _ norm_amount_raises Hin Hm). }
  unfold ingest, ingest_tests.
  destruct (negb _); simpl; [tauto|].
  destruct (message_text _) as [|c0 text0] eqn:Et; [destruct Hin|].
  destruct (extract_cluster _) as [[|]|]; simpl; try tauto.
  rewrite Hmax. destruct (findall _ _); [destruct Hin|]. simpl. tauto.
Qed.

End GapFacts.

Lemma basic_latin_space_is_no_letter : @space_is_no_letter basic_latin.
Proof.
  intros c Hc. unfold isspace in Hc. apply existsb_exists in Hc.
  destruct Hc as (w & Hin & Heq). apply N.eqb_eq in Heq. subst w.
  unfold whitespace in Hin. simpl in Hin.
  repeat (destruct Hin as [<-|Hin]; [vm_compute; auto|]). destruct Hin.
Qed.

(** X10. A text in which white space stands between two characters that
    are not amount characters, as between two words, is never stored.
    AMOUNT_RE matches a piece of that white space by itself, the piece
    cannot be read as a decimal, and the handler is left by
    [InvalidOperation] unless the message was dropped before for its chat
    or for having no cluster.  (White space is assumed to match none of
    the letters U, S, D of the pattern, as in Unicode.) *)
Theorem ingest_words_apart_not_stored `{Unicode} src update now db u x ws y b :
  space_is_no_letter ->
  message_text (Tg.effective_message update) = u ++ x :: ws ++ y :: b ->
  atom_match amount_chars x = false ->
  atom_match amount_chars y = false ->
  ws <> [] -> Forall (fun c => isspace c = true) ws ->
  snd (ingest src update now db) = db /\
  (fst (ingest src update now db) = Raised InvalidOperation \/
   fst (ingest src update now db) = FilteredOrigin \/
   fst (ingest src update now db) = FilteredNoCluster).
Proof.
  intros Hlaw Ht Hx Hy Hne Hws.
  destruct (@findall_gap _ x y ws b Hlaw Hx Hy Hws Hne (S (List.length u)) u)
    as (m & Hm & Hsp); [lia|].
  rewrite <- Ht in Hm.
  apply (ingest_unreadable_match src update now db m Hm).
  now apply norm_amount_of_white_space.
Qed.

Lemma ingest_words_apart_not_stored_witness :
  let u := text_update 7 1 (lit "TEXAS spend $1200") (at_time 2024 3 7 9 30) in
  let r := ingest 7 u (at_time 2024 3 7 9 31) [] in
  snd r = [] /\
  (fst r = Raised InvalidOperation \/ fst r = FilteredOrigin \/
   fst r = FilteredNoCluster).
Proof.
  intros u.
  apply (@ingest_words_apart_not_stored basic_latin 7 u (at_time 2024 3 7 9 31) []
           (lit "TEXA") (chr "S") (lit " ") (chr "s") (lit "pend $1200")).
  - exact basic_latin_space_is_no_letter.
  - reflexivity.
  - reflexivity.
  - reflexivity.
  - discriminate.
  - repeat constructor.
Defined.

(** ** The database block *)

(** X11. The handler never comes to the end of its database block: a call
    ends in [TypeError] exactly when the update is of the source chat,
    has a text with a label in it and a match of AMOUNT_RE, and every
    match is read with a greatest value above zero; it never ends in
    [Duplicate] or [Stored], whatever the table holds. *)
Theorem ingest_TypeError_iff `{Unicode} src update now db :
  let text := message_text (Tg.effective_message update) in
  (fst (ingest src update now db) = Raised TypeError <->
   Tg.id (Tg.effective_chat update) = src /\
   (exists c, extract_cluster text = Some c) /\
   findall AMOUNT_RE text <> [] /\
   (exists amt, max_amount (findall AMOUNT_RE text) = Return amt /\
                Dec.gtb amt Dec.zero = true)) /\
  fst (ingest src update now db) <> Duplicate /\
  fst (ingest src update now db) <> Stored.
Proof.
  intros text.
  destruct (ingest_never_Stored src update now db) as [Hs Hd].
  split; [|split; trivial].
  rewrite ingest_outcome. unfold ingest_tests. fold text.
  destruct (Z.eqb_spec (Tg.id (Tg.effective_chat update)) src) as [Hsrc|Hsrc];
    cbn [negb].
  2: { split; [discriminate|tauto]. }
  destruct text as [|c0 text0] eqn:Et.
  { split; [discriminate|]. intros (_ & _ & Hf & _). now destruct Hf. }
  destruct (extract_cluster (c0 :: text0)) as [cl|] eqn:Ec.
  2: { split; [discriminate|]. intros (_ & (c & Hc) & _). discriminate. }
  assert (Hcl : In cl CLUSTERS) by (eapply extract_cluster_In; eauto).
  destruct cl as [|x cl].
  { unfold CLUSTERS in Hcl. simpl in Hcl.
    destruct Hcl as [Hcl|[Hcl|[Hcl|[]]]]; discriminate. }
  destruct (findall AMOUNT_RE (c0 :: text0)) as [|m ms] eqn:Ef.
  { split; [discriminate|]. intros (_ & _ & Hf & _). now destruct Hf. }
  destruct (max_amount (m :: ms)) as [amt|e] eqn:Em.
  - unfold Dec.leb. destruct (Dec.gtb amt Dec.zero) eqn:Eg; cbn [negb].
    + split; [|reflexivity]. intros _. repeat split; eauto. discriminate.
    + split; [discriminate|]. intros (_ & _ & _ & amt' & Ha & Hg).
      inversion Ha; subst. congruence.
  - apply max_amount_raises in Em as He. subst e.
    split; [discriminate|]. intros (_ & _ & _ & amt' & Ha & _). discriminate.
Qed.

(** ** The plain form of a message *)

Section LabelAndNumber.

(** The ten digits of Basic Latin. *)
Definition is_digit (c : codepoint) : bool := (48 <=? c)%N && (c <=? 57)%N.

(** The number a string of digits stands for. *)
Definition digits_value (ds : str) : N :=
  fold_left (fun acc c => (10 * acc + (c - 48))%N) ds 0%N.

Lemma is_digit_bounds c : is_digit c = true -> (48 <= c <= 57)%N.
Proof.
  unfold is_digit. intros Hc. apply andb_prop in Hc. destruct Hc as [H1 H2].
  apply N.leb_le in H1, H2. lia.
Qed.

Lemma digit_decimal c : is_digit c = true -> decimal c = Some (c - 48)%N.
Proof. unfold is_digit. simpl. now intros ->. Qed.

Lemma digit_not_space c : is_digit c = true -> isspace c = false.
Proof.
  intros Hc. apply is_digit_bounds in Hc.
  unfold isspace, whitespace. simpl.
  repeat match goal with
  | |- context [N.eqb c ?k] =>
      rewrite (proj2 (N.eqb_neq c k)) by lia
  end. reflexivity.
Qed.

Lemma digit_is_amount c : is_digit c = true -> atom_match amount_chars c = true.
Proof.
  intros Hc. simpl. unfold isdecimal. now rewrite (digit_decimal _ Hc).
Qed.

Lemma digits_not_In c ds :
  Forall (fun d => is_digit d = true) ds -> is_digit c = false -> ~ In c ds.
Proof.
  intros Hds Hc Hin. rewrite Forall_forall in Hds. apply Hds in Hin. congruence.
Qed.

Lemma str_replace_absent c new s : ~ In c s -> str_replace c new s = s.
Proof.
  unfold str_replace. induction s as [|x s IH]; simpl; trivial. intros Hn.
  destruct (N.eqb_spec x c); [destruct Hn; now left|].
  simpl. f_equal. apply IH. tauto.
Qed.

Lemma str_upper_digits ds :
  Forall (fun d => is_digit d = true) ds -> str_upper ds = ds.
Proof.
  induction 1 as [|d ds Hd _ IH]; trivial.
  change (str_upper (d :: ds)) with (ascii_upper d :: str_upper ds).
  rewrite IH. f_equal.
  apply is_digit_bounds in Hd. unfold ascii_upper.
  destruct (N.leb_spec 97 d); simpl; trivial. lia.
Qed.

(** A word that starts with a letter does not occur among digits. *)
Lemma str_in_digits c p ds :
  Forall (fun d => is_digit d = true) ds -> is_digit c = false ->
  str_in (c :: p) ds = false.
Proof.
  intros Hds Hc. induction Hds as [|d ds Hd _ IH]; simpl; trivial.
  rewrite IH, orb_false_r.
  destruct (N.eqb_spec c d); [congruence|reflexivity].
Qed.

Lemma lstrip_head c s : isspace c = false -> lstrip (c :: s) = c :: s.
Proof. intros Hc. simpl. now rewrite Hc. Qed.

(** A string that neither starts nor ends with white space is its own
    [strip()]. *)
Lemma str_strip_id c s d :
  isspace c = false -> isspace d = false ->
  str_strip ((c :: s) ++ [d]) = (c :: s) ++ [d].
Proof.
  intros Hc Hd. unfold str_strip.
  assert (E1 : lstrip ((c :: s) ++ [d]) = (c :: s) ++ [d])
    by (simpl; now rewrite Hc).
  assert (E2 : rev ((c :: s) ++ [d]) = d :: rev (c :: s))
    by (rewrite rev_app_distr; reflexivity).
  rewrite E1, E2, (@lstrip_head d _ Hd).
  change (rev (d :: rev (c :: s))) with (rev (rev (c :: s)) ++ [d]).
  now rewrite rev_involutive.
Qed.

Lemma digits_all ds :
  Forall (fun d => is_digit d = true) ds -> forall acc k,
  Dec.digits ds acc k =
  (fold_left (fun a c => (10 * a + (c - 48))%N) ds acc,
   (k + List.length ds)%nat, []).
Proof.
  induction 1 as [|d ds Hd _ IH]; intros acc k.
  - simpl. now rewrite Nat.add_0_r.
  - change (Dec.digits (d :: ds) acc k)
      with (match decimal d with
            | Some v => Dec.digits ds (10 * acc + v)%N (S k)
            | None => (acc, k, d :: ds)
            end).
    rewrite (digit_decimal _ Hd), IH. simpl. repeat f_equal. lia.
Qed.

(** Repetition over a text made of characters of the set takes it all. *)
Lemma star_all a s cap k r :
  Forall (fun c => atom_match a c = true) s ->
  k [] cap = Some r -> star a s cap k = Some r.
Proof.
  intros Hs Hk. induction Hs as [|c s Hc _ IH]; simpl; trivial.
  now rewrite Hc, IH.
Qed.

End LabelAndNumber.

Section LabelAndNumberSteps.
Variables (label ds : str).
Hypothesis Hlabel : In label CLUSTERS.
Hypothesis Hne : ds <> [].
Hypothesis Hds : Forall (fun d => is_digit d = true) ds.

Let text := label ++ chr " " :: ds.

Lemma label_number_strip : str_strip text = text.
Proof.
  destruct (exists_last Hne) as (ds' & d & E). subst text. rewrite E in *.
  apply Forall_app in Hds. destruct Hds as [_ Hd]. inversion Hd; subst.
  assert (Hsp : isspace d = false) by now apply digit_not_space.
  unfold CLUSTERS in Hlabel. simpl in Hlabel.
  destruct Hlabel as [<-|[<-|[<-|[]]]].
  - exact (@str_strip_id 84%N (69 :: 88 :: 65 :: 83 :: 32 :: ds')%N d eq_refl Hsp).
  - exact (@str_strip_id 83%N (75 :: 89 :: 32 :: ds')%N d eq_refl Hsp).
  - exact (@str_strip_id 65%N (76 :: 88 :: 32 :: ds')%N d eq_refl Hsp).
Qed.

Lemma label_number_upper : str_upper text = text.
Proof.
  subst text. rewrite str_upper_app.
  change (str_upper (chr " " :: ds)) with (chr " " :: str_upper ds).
  rewrite (str_upper_digits Hds).
  unfold CLUSTERS in Hlabel. simpl in Hlabel.
  destruct Hlabel as [<-|[<-|[<-|[]]]]; reflexivity.
Qed.

Lemma extract_cluster_cases t :
  extract_cluster t =
  if mentions t (lit "TEXAS") then Some (lit "TEXAS")
  else if mentions t (lit "SKY") then Some (lit "SKY")
  else if mentions t (lit "ALX") then Some (lit "ALX")
  else None.
Proof. reflexivity. Qed.

Lemma label_number_cluster : extract_cluster text = Some label.
Proof.
  rewrite extract_cluster_cases. unfold mentions.
  rewrite label_number_upper. subst text.
  assert (HT : str_in (lit "TEXAS") ds = false) by now apply str_in_digits.
  assert (HS : str_in (lit "SKY") ds = false) by now apply str_in_digits.
  assert (Hself : str_in label (label ++ chr " " :: ds) = true)
    by apply (str_in_app label [] (chr " " :: ds)).
  unfold CLUSTERS in *. simpl in Hlabel.
  destruct Hlabel as [<-|[<-|[<-|[]]]].
  - now rewrite Hself.
  - assert (H1 : str_in (lit "TEXAS") (lit "SKY" ++ chr " " :: ds) = false)
      by (simpl; now rewrite HT).
    now rewrite H1, Hself.
  - assert (H1 : str_in (lit "TEXAS") (lit "ALX" ++ chr " " :: ds) = false)
      by (simpl; now rewrite HT).
    assert (H2 : str_in (lit "SKY") (lit "ALX" ++ chr " " :: ds) = false)
      by (simpl; now rewrite HS).
    now rewrite H1, H2, Hself.
Qed.

(** Where a letter of a label stands, nothing matches. *)
Lemma match_at_letter c s :
  In c (lit "TEXASKYL") -> match_at AMOUNT_RE (c :: s) = None.
Proof.
  intros Hc. simpl in Hc.
  repeat (destruct Hc as [<-|Hc]; [reflexivity|]). destruct Hc.
Qed.

Lemma match_at_blank_digits :
  match_at AMOUNT_RE (chr " " :: ds) = Some ([], Some (chr " " :: ds)).
Proof.
  change (match_at AMOUNT_RE (chr " " :: ds))
    with (star amount_chars ds None
            (fun s' _ =>
               run amount_suffix s'
                 (Some (firstn (List.length (chr " " :: ds) - List.length s')
                          (chr " " :: ds)))
                 (fun s cap => Some (s, cap)))).
  apply star_all.
  - eapply Forall_impl; [|exact Hds]. intros c. apply digit_is_amount.
  - cbn [run amount_suffix star]. simpl run.
    rewrite Nat.sub_0_r, firstn_all. reflexivity.
Qed.

Lemma label_number_findall : findall AMOUNT_RE text = [chr " " :: ds].
Proof.
  assert (Hrest : findall_from AMOUNT_RE O (chr " " :: ds) = [chr " " :: ds]).
  { rewrite findall_from_cons, match_at_blank_digits. simpl group1.
    replace (List.length (chr " " :: ds) - List.length (@nil codepoint) - 1)%nat
      with (List.length ds) by (simpl; lia).
    replace (findall_from AMOUNT_RE (List.length ds) ds)
      with (findall_from AMOUNT_RE (List.length ds) (ds ++ []))
      by now rewrite app_nil_r.
    rewrite findall_from_consumed. reflexivity. }
  subst text. unfold findall, CLUSTERS in *. simpl in Hlabel.
  destruct Hlabel as [<-|[<-|[<-|[]]]]; simpl app;
    repeat (rewrite findall_from_cons, match_at_letter
              by (simpl; tauto));
    exact Hrest.
Qed.

Lemma label_number_amount :
  max_amount [chr " " :: ds] =
  Return {| sign := false; coefficient := digits_value ds; exponent := 0 |}.
Proof.
  clear text Hlabel.
  assert (Habs : forall c, is_digit c = false -> ~ In c ds)
    by (intros c Hc; now apply digits_not_In).
  assert (Hnorm : _norm_amount (chr " " :: ds) =
                  Return {| sign := false; coefficient := digits_value ds;
                            exponent := 0 |}).
  { unfold _norm_amount.
    change (chr " ") with 32%N. change (chr ",") with 44%N.
    change (chr ".") with 46%N.
    assert (E1 : str_replace 32%N [] (str_replace 8239%N []
                                        (@cons codepoint 32%N ds)) = ds).
    { rewrite (@str_replace_absent 8239%N)
        by (intros [Hf|Hf]; [discriminate|revert Hf; now apply Habs]).
      change (str_replace 32%N [] (32%N :: ds)) with (str_replace 32%N [] ds).
      apply str_replace_absent. now apply Habs. }
    rewrite !E1.
    assert (H44 : str_count 44%N ds = O) by (apply str_count_0; now apply Habs).
    rewrite H44. cbn [Nat.eqb Nat.ltb Nat.leb andb]. cbv zeta.
    rewrite H44. cbn [Nat.eqb Nat.ltb Nat.leb andb].
    unfold Dec.of_str.
    destruct (exists_last Hne) as (ds' & d & E).
    assert (Hstrip : str_strip ds = ds).
    { assert (Hds2 := Hds). rewrite E in Hds2 |- *.
      apply Forall_app in Hds2. destruct Hds2 as [Hds' Hd].
      inversion Hd; subst.
      destruct ds' as [|c ds'].
      - unfold str_strip. simpl. rewrite (digit_not_space d); trivial.
        simpl. now rewrite (digit_not_space d).
      - inversion Hds'; subst.
        apply str_strip_id; now apply digit_not_space. }
    rewrite Hstrip, (digits_all Hds). simpl.
    destruct ds; [congruence|reflexivity]. }
  unfold max_amount, for_each. rewrite Hnorm. reflexivity.
Qed.

End LabelAndNumberSteps.

(** X12. The plain form of a spend message is not stored: for a text made
    of one of the three labels, a blank and a string of Basic Latin
    digits that is not zero, in a message of the source chat, the handler
    passes every test, with that label for the cluster and the number for
    the amount, and raises [TypeError] at the first statement of the
    database block, whatever the table holds. *)
Theorem label_and_number_raises_TypeError src mid sent now db label ds :
  In label CLUSTERS ->
  ds <> [] -> Forall (fun d => is_digit d = true) ds ->
  digits_value ds <> 0%N ->
  let update := text_update src mid (label ++ chr " " :: ds) sent in
  ingest_tests src update now =
    inr {| Frame.text := label ++ chr " " :: ds; Frame.cluster := label;
           Frame.matches := [chr " " :: ds];
           Frame.amount := {| sign := false; coefficient := digits_value ds;
                              exponent := 0 |};
           Frame.ymd := strftime_ymd now |} /\
  ingest src update now db = (Raised TypeError, db).
Proof.
  intros Hlabel Hne Hds Hval update.
  assert (Htext : message_text (Tg.effective_message update)
                  = label ++ chr " " :: ds).
  { unfold update, message_text, text_update.
    cbn [Tg.effective_message Tg.text Tg.caption opt_or].
    assert (Hor : str_or (label ++ chr " " :: ds) [] = label ++ chr " " :: ds)
      by (destruct label; reflexivity).
    rewrite Hor. now apply label_number_strip. }
  assert (Hleb : Dec.leb {| sign := false; coefficient := digits_value ds;
                            exponent := 0 |} Dec.zero = false).
  { destruct (Dec.leb _ Dec.zero) eqn:E; trivial.
    apply leb_zero in E; simpl in *; try lia; trivial. }
  assert (Htests : ingest_tests src update now =
    inr {| Frame.text := label ++ chr " " :: ds; Frame.cluster := label;
           Frame.matches := [chr " " :: ds];
           Frame.amount := {| sign := false; coefficient := digits_value ds;
                              exponent := 0 |};
           Frame.ymd := strftime_ymd now |}).
  { unfold ingest_tests. rewrite Htext.
    change (Tg.id (Tg.effective_chat update)) with src.
    rewrite Z.eqb_refl. cbn [negb].
    rewrite (label_number_cluster Hlabel Hds),
      (label_number_findall Hlabel Hds), (label_number_amount Hne Hds).
    rewrite Hleb.
    unfold CLUSTERS in Hlabel. simpl in Hlabel.
    destruct Hlabel as [<-|[<-|[<-|[]]]]; reflexivity. }
  split; [exact Htests|]. unfold ingest. now rewrite Htests.
Qed.

Lemma label_and_number_raises_TypeError_witness :
  let now := at_time 2024 3 7 9 31 in
  let update := text_update 7 1 (lit "SKY 500") now in
  ingest_tests 7 update now =
    inr {| Frame.text := lit "SKY 500"; Frame.cluster := lit "SKY";
           Frame.matches := [lit " 500"];
           Frame.amount := {| sign := false; coefficient := 500;
                              exponent := 0 |};
           Frame.ymd := lit "2024-03-07" |} /\
  ingest 7 update now [] = (Raised TypeError, []).
Proof.
  intros now.
  apply (@label_and_number_raises_TypeError 7 1 now now [] (lit "SKY") (lit "500")).
  - vm_compute. tauto.
  - discriminate.
  - repeat constructor.
  - vm_compute. discriminate.
Defined.

(** ** The report of a day *)

Section ReportFacts.
Context `{Engine}.

Lemma filter_none {A} (f : A -> bool) l :
  (forall a, In a l -> f a = false) -> filter f l = [].
Proof.
  induction l as [|a l IH]; simpl; trivial. intros Hall.
  rewrite (Hall a (or_introl eq_refl)). apply IH. auto.
Qed.

(** The numbers of records of the rows add up to the records of the day. *)
Lemma summary_count db day :
  list_sum (List.map n (fst (summarize_day db day))) =
  List.length (filter (fun r => str_eqb (ymd r) day) db).
Proof.
  rewrite (Permutation_list_sum (Permutation_map n (summary_rows_perm db day))).
  rewrite map_map. simpl. apply group_by_cluster_rows_in.
Qed.

(** The report depends on the rows of its day only. *)
Lemma summarize_day_filter db db' day :
  filter (fun r => str_eqb (ymd r) day) db' =
  filter (fun r => str_eqb (ymd r) day) db ->
  summarize_day db' day = summarize_day db day.
Proof. unfold summarize_day. now intros ->. Qed.

End ReportFacts.

(** X13. A day without records has an empty report: no row and the total
    0.0, whatever the table holds for other days, the empty table
    included. *)
Theorem summarize_day_no_records `{Engine} db day :
  (forall r, In r db -> ymd r <> day) ->
  summarize_day db day = ([], S754_zero false).
Proof.
  intros Hall. unfold summarize_day.
  rewrite filter_none by (intros r Hr; apply str_eqb_neq; auto).
  simpl. f_equal.
  apply Permutation_nil. apply Permutation_sym. apply order_by_perm.
Qed.

Lemma summarize_day_no_records_witness :
  let db := [spend 1 (lit "2024-03-07") (lit "SKY") 500 0] in
  @summarize_day Reference.engine db (lit "2024-03-08") = ([], S754_zero false).
Proof.
  intros db.
  apply (@summarize_day_no_records Reference.engine db (lit "2024-03-08")).
  vm_compute. intros r [<-|[]]. discriminate.
Defined.

(** X14. Records of other days never change the report of a day: a row
    whose day is not the one asked for can be put into the table or taken
    out of it, at any place, and both queries return the same. *)
Theorem summarize_day_other_days `{Engine} db1 db2 r day :
  ymd r <> day ->
  summarize_day (db1 ++ r :: db2) day = summarize_day (db1 ++ db2) day.
Proof.
  intros Hr. apply summarize_day_filter.
  rewrite !filter_app. simpl.
  apply str_eqb_neq in Hr. now rewrite Hr.
Qed.

Lemma summarize_day_other_days_witness :
  let r := {| id := 9; chat_id := 7; message_id := 9; ymd := lit "2024-03-06";
              cluster := lit "ALX"; amount := S754_zero false |} in
  @summarize_day Reference.engine ([] ++ r :: []) (lit "2024-03-07") =
  @summarize_day Reference.engine ([] ++ []) (lit "2024-03-07").
Proof.
  intros r.
  apply (@summarize_day_other_days Reference.engine [] [] r (lit "2024-03-07")).
  discriminate.
Defined.

(** X15. The report of a day has at most three rows: when every cluster in
    the table is one of the three labels, each row of the grouped query
    carries one of the labels, no label comes twice, and each row counts
    at least one record. *)
Theorem summary_at_most_three_rows `{Engine} db day :
  Forall (fun r => In (cluster r) CLUSTERS) db ->
  let rows := fst (summarize_day db day) in
  (List.length rows <= 3)%nat /\
  NoDup (List.map s_cluster rows) /\
  Forall (fun row => In (s_cluster row) CLUSTERS /\ (1 <= n row)%nat) rows.
Proof.
  intros Hdb rows.
  set (of_day := filter (fun r => str_eqb (ymd r) day) db).
  assert (Hperm : Permutation rows (List.map summary_of (group_by_cluster of_day)))
    by apply summary_rows_perm.
  destruct (group_by_cluster_grouped of_day) as (Hnd & Hrows & _).
  assert (Hrow : Forall (fun row => In (s_cluster row) CLUSTERS /\ (1 <= n row)%nat)
                   rows).
  { apply Forall_forall. intros row Hin.
    apply (Permutation_in _ Hperm) in Hin. apply in_map_iff in Hin.
    destruct Hin as ([c rs] & <- & Hg). simpl.
    destruct (Hrows _ _ Hg) as [Hrs Hne].
    destruct rs as [|r0 rs0]; [congruence|]. split; [|simpl; lia].
    assert (Hr0 : In r0 (filter (in_cluster c) of_day))
      by (rewrite <- Hrs; now left).
    apply filter_In in Hr0. destruct Hr0 as [Hr0 Hc].
    apply str_eqb_eq in Hc. subst c.
    subst of_day. apply filter_In in Hr0. destruct Hr0 as [Hr0 _].
    rewrite Forall_forall in Hdb. now apply Hdb. }
  assert (Hnd' : NoDup (List.map s_cluster rows)).
  { apply (Permutation_NoDup (l := List.map fst (group_by_cluster of_day))); trivial.
    replace (List.map fst (group_by_cluster of_day))
      with (List.map s_cluster (List.map summary_of (group_by_cluster of_day)))
      by (rewrite map_map; reflexivity).
    apply Permutation_map. now apply Permutation_sym. }
  repeat split; trivial.
  rewrite <- (length_map s_cluster).
  change 3%nat with (List.length CLUSTERS).
  apply NoDup_incl_length; trivial.
  intros c Hc. apply in_map_iff in Hc. destruct Hc as (row & <- & Hin).
  rewrite Forall_forall in Hrow. now apply Hrow.
Qed.

Lemma summary_at_most_three_rows_witness :
  let db := [spend 1 (lit "2024-03-07") (lit "SKY") 500 0;
             spend 2 (lit "2024-03-07") (lit "ALX") 100 0] in
  let rows := fst (@summarize_day Reference.engine db (lit "2024-03-07")) in
  (List.length rows <= 3)%nat /\
  NoDup (List.map s_cluster rows) /\
  Forall (fun row => In (s_cluster row) CLUSTERS /\ (1 <= n row)%nat) rows.
Proof.
  intros db.
  apply (@summary_at_most_three_rows Reference.engine db (lit "2024-03-07")).
  vm_compute. repeat constructor; tauto.
Defined.

(* ================================================================= *)
(** * The commands *)

(** The calendar of [datetime]. *)
Definition is_leap (y : N) : bool :=
  ((y mod 4 =? 0) && (negb (y mod 100 =? 0) || (y mod 400 =? 0)))%N.

Definition days_in_month (y m : N) : N :=
  match m with
  | 2 => if is_leap y then 29 else 28
  | 4 | 6 | 9 | 11 => 30
  | _ => 31
  end%N.

(** [t - dt.timedelta(days=1)]: the same time on the day before, for a
    date after the first day of year 1. *)
Definition minus_one_day (t : Tg.datetime) : Tg.datetime :=
  let with_date y m d :=
    {| Tg.year := y; Tg.month := m; Tg.day := d; Tg.hour := Tg.hour t;
       Tg.minute := Tg.minute t; Tg.second := Tg.second t |} in
  if (1 <? Tg.day t)%N then with_date (Tg.year t) (Tg.month t) (Tg.day t - 1)%N
  else if (1 <? Tg.month t)%N
  then with_date (Tg.year t) (Tg.month t - 1)%N
         (days_in_month (Tg.year t) (Tg.month t - 1))
  else with_date (Tg.year t - 1)%N 12%N 31%N.

Section Commands.
Context `{Engine}.

(** [cmd_today] and [cmd_summarize]: the report of the day of the clock;
    [cmd_yesterday]: the report of the day before.  [now] is the reading
    of the clock, the table is the one the handler finds. *)
Definition cmd_today (now : Tg.datetime) (db : table) : list Summary * float :=
  summarize_day db (strftime_ymd now).

Definition cmd_yesterday (now : Tg.datetime) (db : table) : list Summary * float :=
  summarize_day db (strftime_ymd (minus_one_day now)).

Definition cmd_summarize (now : Tg.datetime) (db : table) : list Summary * float :=
  summarize_day db (strftime_ymd now).

End Commands.

(** The day before is written differently from the day. *)
Lemma yesterday_differs now :
  (1 <= Tg.month now <= 12)%N -> (1 <= Tg.day now <= 31)%N ->
  strftime_ymd (minus_one_day now) <> strftime_ymd now.
Proof.
  intros Hm Hd E. unfold minus_one_day, strftime_ymd in E.
  destruct (N.ltb_spec 1 (Tg.day now)) as [Hday|Hday]; simpl in E.
  - inversion E.
    assert (Tg.day now - 1 = Tg.day now)%N
      by (apply two_digits_inj; [lia|lia|assumption|assumption]).
    lia.
  - destruct (N.ltb_spec 1 (Tg.month now)) as [Hmo|Hmo]; simpl in E.
    + inversion E.
      assert (Tg.month now - 1 = Tg.month now)%N
        by (apply two_digits_inj; [lia|lia|assumption|assumption]).
      lia.
    + inversion E.
      assert (12 = Tg.month now)%N
        by (apply two_digits_inj; [lia|lia|assumption|assumption]).
      lia.
Qed.

(** X16. A record of today shows under /today and not under /yesterday:
    with a row of the day of the clock put into the table, at any place,
    the report of [cmd_yesterday] at that reading of the clock is what it
    is without the row, and the numbers of records in the report of
    [cmd_today] add up to one more.  (The clock shows a month from 1 to
    12 and a day from 1 to 31.) *)
Theorem record_of_today_not_under_yesterday `{Engine} now db1 db2 r :
  (1 <= Tg.month now <= 12)%N -> (1 <= Tg.day now <= 31)%N ->
  ymd r = strftime_ymd now ->
  cmd_yesterday now (db1 ++ r :: db2) = cmd_yesterday now (db1 ++ db2) /\
  list_sum (List.map n (fst (cmd_today now (db1 ++ r :: db2)))) =
    S (list_sum (List.map n (fst (cmd_today now (db1 ++ db2))))).
Proof.
  intros Hm Hd Hr.
  unfold cmd_yesterday, cmd_today. split.
  - apply summarize_day_filter. rewrite !filter_app. simpl.
    assert (Hy : str_eqb (ymd r) (strftime_ymd (minus_one_day now)) = false).
    { apply str_eqb_neq. rewrite Hr. intros Heq. symmetry in Heq.
      exact (@yesterday_differs now Hm Hd Heq). }
    now rewrite Hy.
  - rewrite !summary_count, !filter_app, !length_app. simpl.
    assert (Ht : str_eqb (ymd r) (strftime_ymd now) = true)
      by now apply str_eqb_eq.
    rewrite Ht. simpl. lia.
Qed.

Lemma record_of_today_not_under_yesterday_witness :
  let now := at_time 2024 3 1 0 5 in
  let r := {| id := 1; chat_id := 7; message_id := 1; ymd := lit "2024-03-01";
              cluster := lit "SKY"; amount := S754_finite false 1 2 |} in
  @cmd_yesterday Reference.engine now ([] ++ r :: []) =
    @cmd_yesterday Reference.engine now ([] ++ []) /\
  list_sum (List.map n (fst (@cmd_today Reference.engine now ([] ++ r :: [])))) =
    S (list_sum (List.map n (fst (@cmd_today Reference.engine now ([] ++ []))))).
Proof.
  intros now r.
  apply (@record_of_today_not_under_yesterday Reference.engine now [] [] r).
  - simpl. lia.
  - simpl. lia.
  - reflexivity.
Defined.

(* ================================================================= *)
(** * Start-up: the settings read from the environment *)

Module Startup.



Section Load.
(** [int(s)] on a string, [None] when it raises; the number syntax of
    Python is not modelled. *)
Variable int : str -> option Z.
(** [os.getenv(name)]: the environment after [load_dotenv()]. *)
Variable environ : str -> option str.




End Load.
End Startup.



(* ================================================================= *)
(** * The text of the report *)

(** The decimal digits of [n] in front of [acc]; [fuel] bounds their
    number. *)
Fixpoint digits_acc (fuel : nat) (n : N) (acc : str) : str :=
  match fuel with
  | O => acc
  | S fuel' =>
      if (n <? 10)%N then digit n :: acc
      else digits_acc fuel' (n / 10)%N (digit n :: acc)
  end.

(** [str(n)] for an integer that is not negative. *)
Definition str_of_N (n : N) : str := digits_acc (S (N.size_nat n)) n [].

(** The thousands separators of the [,] format, put in from the right:
    the argument and the result are the digits last first. *)
Fixpoint group3 (r : str) : str :=
  match r with
  | a :: b :: c :: ((_ :: _) as rest) => a :: b :: c :: chr "," :: group3 rest
  | _ => r
  end.

(** [num / den] rounded to the nearest integer, ties to even. *)
Definition round_half_even (num den : Z) : Z :=
  let q := num / den in
  match Z.compare (2 * (num mod den)) den with
  | Lt => q
  | Gt => q + 1
  | Eq => if Z.even q then q else q + 1
  end.

(** The value [m * 2^e] in hundredths, correctly rounded. *)
Definition hundredths (m : positive) (e : Z) : N :=
  Z.to_N (if 0 <=? e then Zpos m * 2 ^ e * 100
          else round_half_even (Zpos m * 100) (2 ^ (- e))).

(** [q] hundredths written with two decimals and thousands separators. *)
Definition render_hundredths (q : N) : str :=
  rev (group3 (rev (str_of_N (q / 100)))) ++
  [chr "."; digit (q / 10); digit q].

(** [format(x, ",.2f")] *)
Definition format_2f (x : float) : str :=
  let minus (s : bool) : str := if s then [chr "-"] else [] in
  match x with
  | S754_nan => lit "nan"
  | S754_infinity s => minus s ++ lit "inf"
  | S754_zero s => minus s ++ render_hundredths 0
  | S754_finite s m e => minus s ++ render_hundredths (hundredths m e)
  end.

(** ["\n".join(lines)] *)
Fixpoint join_lines (lines : list str) : str :=
  match lines with
  | [] => []
  | [l] => l
  | l :: rest => l ++ 10%N :: join_lines rest
  end.

(** One line of the body: a bullet, the cluster, the total and the number
    of records, followed by the Russian word for records. *)
Definition report_line (r : Summary) : str :=
  [8226; 32]%N ++ s_cluster r ++ [58; 32; 36]%N ++ format_2f (total r) ++
  [32; 40]%N ++ str_of_N (N.of_nat (n r)) ++
  [32; 1079; 1072; 1087; 1080; 1089; 1077; 1081; 41]%N.

(** The body when there is no row: the Russian for no data. *)
Definition no_data : str :=
  [1044; 1072; 1085; 1085; 1099; 1093; 32; 1085; 1077; 1090; 46]%N.

(** The start of the message, up to the day: a chart sign and the Russian
    for spend summary for. *)
Definition report_title : str :=
  [128202; 32; 1057; 1074; 1086; 1076; 1082; 1072; 32; 1089; 1087; 1077;
   1085; 1076; 1072; 32; 1079; 1072; 32]%N.

(** The start of the last line, after an empty line: the Russian for
    total, a colon and the dollar sign. *)
Definition report_total : str :=
  [10; 10; 1048; 1058; 1054; 1043; 1054; 58; 32; 36]%N.

(** The text of the message: the title with the day, the body and the
    line of the total. *)
Definition report_text (day : str) (rows : list Summary) (total_ : float) : str :=
  let body := match rows with
              | [] => no_data
              | _ :: _ => join_lines (List.map report_line rows)
              end in
  report_title ++ day ++ 10%N :: body ++ report_total ++ format_2f total_.

(** What [summarize_day] sends: the chat and the text of
    [send_message]. *)
Definition summarize_day_message `{Engine} (POST_CHAT_ID : Z)
  (db : table) (day : str) : Z * str :=
  let '(rows, total_) := summarize_day db day in
  (POST_CHAT_ID, report_text day rows total_).

(** ** What the report shows *)

Section TextFacts.

Lemma size_nat_pos p : (1 <= Pos.size_nat p)%nat.
Proof. destruct p; simpl; lia. Qed.

Lemma size_nat_1000 n : (1000 <= n)%N -> (4 <= N.size_nat n)%nat.
Proof.
  destruct n as [|p]; [lia|]. intros Hn. simpl.
  destruct p as [p|p|]; [| |lia];
    (destruct p as [p|p|]; [| |lia]);
    (destruct p as [p|p|]; [| |lia]);
    simpl; pose proof (size_nat_pos p); lia.
Qed.

Lemma digits_acc_length fuel : forall n acc,
  (List.length acc <= List.length (digits_acc fuel n acc))%nat.
Proof.
  induction fuel as [|fuel IH]; simpl; intros n acc; [lia|].
  destruct (n <? 10)%N; simpl; [lia|].
  specialize (IH (n / 10)%N (digit n :: acc)). simpl in IH. lia.
Qed.

Lemma digits_acc_step fuel n acc :
  (10 <= n)%N ->
  digits_acc (S fuel) n acc = digits_acc fuel (n / 10)%N (digit n :: acc).
Proof.
  intros Hn. simpl. destruct (N.ltb_spec n 10); [lia|reflexivity].
Qed.

Lemma digits_acc_longer fuel n acc :
  (S (List.length acc) <= List.length (digits_acc (S fuel) n acc))%nat.
Proof.
  simpl. destruct (n <? 10)%N; simpl; [lia|].
  etransitivity; [|apply digits_acc_length]. simpl; lia.
Qed.

(** From 1000 up a number has four digits at least. *)
Lemma str_of_N_1000 n : (1000 <= n)%N -> (4 <= List.length (str_of_N n))%nat.
Proof.
  intros Hn. unfold str_of_N.
  pose proof (size_nat_1000 Hn) as Hsz.
  destruct (N.size_nat n) as [|[|[|[|k]]]]; try lia.
  assert (H1 : (100 <= n / 10)%N)
    by (apply (N.Div0.div_le_mono _ _ 10) in Hn; exact Hn).
  assert (H2 : (10 <= n / 10 / 10)%N)
    by (apply (N.Div0.div_le_mono _ _ 10) in H1; exact H1).
  rewrite (@digits_acc_step _ n) by lia.
  rewrite (@digits_acc_step _ (n / 10)%N) by lia.
  rewrite (@digits_acc_step _ (n / 10 / 10)%N) by lia.
  etransitivity; [|apply digits_acc_longer]. simpl; lia.
Qed.

Lemma group3_comma r : (4 <= List.length r)%nat -> In 44%N (group3 r).
Proof.
  destruct r as [|a [|b [|c [|d r]]]]; intros Hr; try (simpl in Hr; lia).
  simpl. auto.
Qed.

(** From 1,000.00 up the text has a comma and a period. *)
Lemma render_hundredths_comma q :
  (100000 <= q)%N ->
  In 44%N (render_hundredths q) /\ In 46%N (render_hundredths q).
Proof.
  intros Hq. unfold render_hundredths. split; apply in_or_app.
  - left. apply -> in_rev. apply group3_comma. rewrite length_rev.
    apply str_of_N_1000.
    apply (N.Div0.div_le_mono _ _ 100) in Hq. exact Hq.
  - right. now left.
Qed.

(** [p q] for the [fuel] numbers from [q] on. *)
Fixpoint all_from (fuel : nat) (q : N) (p : N -> bool) : bool :=
  match fuel with
  | O => true
  | S fuel' => p q && all_from fuel' (N.succ q) p
  end.

Lemma all_from_spec p fuel : forall q,
  all_from fuel q p = true ->
  forall x, (q <= x < q + N.of_nat fuel)%N -> p x = true.
Proof.
  induction fuel as [|fuel IH]; intros q E x Hx; [lia|].
  simpl in E. apply andb_prop in E. destruct E as [E1 E2].
  destruct (N.eq_dec x q) as [->|Hne]; trivial.
  apply (IH _ E2). lia.
Qed.

(** Whether [_norm_amount] reads the text of [q] hundredths as [q]
    hundredths. *)
Definition reads_back (q : N) : bool :=
  match @_norm_amount basic_latin (render_hundredths q) with
  | Return d => negb (sign d) && (coefficient d =? q)%N && (exponent d =? -2)
  | Raise _ => false
  end.

Lemma reads_back_below_1000 :
  all_from (N.to_nat 100000) 0 reads_back = true.
Proof. vm_compute. reflexivity. Qed.

Lemma reads_back_spec q :
  reads_back q = true ->
  @_norm_amount basic_latin (render_hundredths q) =
  Return {| sign := false; coefficient := q; exponent := -2 |}.
Proof.
  unfold reads_back.
  destruct (@_norm_amount basic_latin (render_hundredths q)) as [[s c e]|];
    [|discriminate].
  simpl. intros E. apply andb_prop in E. destruct E as [E E3].
  apply andb_prop in E. destruct E as [E1 E2].
  apply N.eqb_eq in E2. apply Z.eqb_eq in E3.
  destruct s; [discriminate|]. now subst.
Qed.

(** The first character of a body with rows is the bullet. *)
Lemma body_head row rows :
  exists rest, join_lines (List.map report_line (row :: rows)) = 8226%N :: rest.
Proof. destruct rows; simpl; eexists; reflexivity. Qed.

End TextFacts.

(** X18. The message says that there is no data exactly when the table
    holds no record of the day: [summarize_day] then sends, to the post
    chat, the title with the day, the no-data line and the total
    [$0.00]; with a record of the day in the table it sends another
    text. *)
Theorem report_no_data_iff `{Engine} chat db day :
  summarize_day_message chat db day =
    (chat, report_title ++ day ++ 10%N :: no_data ++ report_total ++ lit "0.00")
  <-> (forall r, In r db -> ymd r <> day).
Proof.
  unfold summarize_day_message.
  destruct (summarize_day db day) as [rows total_] eqn:E.
  pose proof (summary_count db day) as Hcount. rewrite E in Hcount.
  simpl in Hcount.
  destruct (filter (fun r => str_eqb (ymd r) day) db) as [|r0 of_day] eqn:Ef.
  - assert (Hall : forall r, In r db -> ymd r <> day).
    { intros r Hr Hday.
      assert (Hin : In r (filter (fun r => str_eqb (ymd r) day) db))
        by (apply filter_In; split; trivial; now apply str_eqb_eq).
      rewrite Ef in Hin. destruct Hin. }
    split; [trivial|]. intros _.
    unfold summarize_day in E. rewrite Ef in E. simpl in E.
    inversion E; subst.
    assert (Hnil : order_by_total_desc [] = []).
    { apply Permutation_nil. apply Permutation_sym. apply order_by_perm. }
    rewrite Hnil. reflexivity.
  - split.
    + intros Etext. exfalso. destruct rows as [|row rows]; [discriminate|].
      destruct (body_head row rows) as (rest & Hb).
      apply (f_equal snd) in Etext. cbn [snd] in Etext.
      unfold report_text in Etext. rewrite Hb in Etext.
      apply app_inv_head in Etext. apply app_inv_head in Etext.
      discriminate.
    + intros Hall. exfalso. apply (Hall r0).
      * assert (Hin : In r0 (filter (fun r => str_eqb (ymd r) day) db))
          by (rewrite Ef; now left).
        apply filter_In in Hin. tauto.
      * assert (Hin : In r0 (filter (fun r => str_eqb (ymd r) day) db))
          by (rewrite Ef; now left).
        apply filter_In in Hin. destruct Hin as [_ Hd].
        now apply str_eqb_eq.
Qed.

(** X19. The amounts of the report are read back by [_norm_amount] below
    1,000.00 only: the text [format(x, ",.2f")] of a float [x] that is
    finite and above zero is read as the same number of hundredths when it
    shows less than 1,000.00, and raises [InvalidOperation] from there
    on, where it has a comma and a period. *)
Theorem shown_amount_read_back m e :
  let q := hundredths m e in
  @_norm_amount basic_latin (format_2f (S754_finite false m e)) =
  if (q <? 100000)%N
  then Return {| sign := false; coefficient := q; exponent := -2 |}
  else Raise InvalidOperation.
Proof.
  intros q. change (format_2f (S754_finite false m e)) with (render_hundredths q).
  destruct (N.ltb_spec q 100000) as [Hq|Hq].
  - apply reads_back_spec.
    apply (@all_from_spec reads_back _ _ reads_back_below_1000).
    rewrite N2Nat.id. lia.
  - destruct (render_hundredths_comma Hq) as [Hc Hp].
    now apply (@comma_and_period basic_latin).
Qed.
